(** * endpoint: DNS endpoints, target lists and their comparison

    A shallow embedding of [endpoint/endpoint.go] of external-dns.

    - Go strings are byte sequences: they are [string] (a list of 8-bit
      [ascii]), [len] is [String.length], [<] is the byte-wise
      lexicographic order [String.ltb].
    - A slice is a header (first cell, length) into a backing array that
      other slices may share.  The comparison methods of [Targets] sort
      through that header, so they are modelled over a heap of string
      cells and return the heap they leave behind.
    - A run-time panic (index out of range) is [None].
    - Log calls are a side channel and are left out.
    - Functions of Go's standard library are embedded as far as the
      package needs them; what depends on tables or on code that is not
      used by any statement below is a [Variable] of the section. *)

From Stdlib Require Import ZArith NArith String Ascii List Lia Bool.
From Stdlib Require Import Sorting.Sorted Sorting.Permutation.
From stdpp Require Import base list sorting strings gmap.

Open Scope string_scope.
Open Scope list_scope.

(** * Part I: the embedding *)

(** ** Go strings and the package [strings] *)

Module GoString.

(** [a < b] on strings. *)
Definition lt (a b : string) : bool := String.ltb a b.

(** [a <= b], as a proposition: [b < a] is false. *)
Definition le (a b : string) : Prop := lt b a = false.

(** [s[i]] as a number. *)
Definition byte (c : ascii) : N := N_of_ascii c.

(** [s[from:]] and [s[:to]]. *)
Definition slice_from (s : string) (from : nat) : string :=
  String.substring from (String.length s - from) s.
Definition slice_to (s : string) (to : nat) : string :=
  String.substring 0 to s.

End GoString.

Module strings.

(** [strings.HasSuffix]:
    [len(s) >= len(suffix) && s[len(s)-len(suffix):] == suffix]. *)
Definition HasSuffix (s suffix : string) : bool :=
  (String.length suffix <=? String.length s)%nat
  && String.eqb (GoString.slice_from s (String.length s - String.length suffix)) suffix.

(** [strings.TrimSuffix]: [s] without the trailing [suffix], once. *)
Definition TrimSuffix (s suffix : string) : string :=
  if HasSuffix s suffix
  then GoString.slice_to s (String.length s - String.length suffix)
  else s.

(** [strings.Split(s, sep)] for a separator of one byte: [label] holds the
    bytes read since the last separator. *)
Fixpoint Split_from (label s : string) (sep : ascii) : list string :=
  match s with
  | EmptyString => [label]
  | String c s' =>
      if Ascii.eqb c sep then label :: Split_from "" s' sep
      else Split_from (String.append label (String c "")) s' sep
  end.
Definition Split (s : string) (sep : ascii) : list string := Split_from "" s sep.

(** [strings.EqualFold]: the loop over ASCII bytes, as Go writes it.  At the
    first byte outside ASCII in either string Go jumps to a loop over runes
    that consults Unicode's case-folding tables; that loop is the variable
    [hasUnicode], applied to what is left of both strings. *)
Section EqualFold.
Variable hasUnicode : string -> string -> bool.

Definition RuneSelf : N := 128.

Fixpoint EqualFold (s t : string) : bool :=
  match s, t with
  | String sc s', String tc t' =>
      let sr := GoString.byte sc in
      let tr := GoString.byte tc in
      if (RuneSelf <=? N.lor sr tr)%N then hasUnicode s t
      else if (tr =? sr)%N then EqualFold s' t'
      else
        (* make sr < tr *)
        let lo := if (tr <? sr)%N then tr else sr in
        let hi := if (tr <? sr)%N then sr else tr in
        (* 'A' <= sr && sr <= 'Z' && tr == sr+'a'-'A' *)
        if (65 <=? lo)%N && (lo <=? 90)%N && (hi =? (lo + 97 - 65) mod 256)%N
        then EqualFold s' t'
        else false
  | EmptyString, EmptyString => true
  | _, _ => false
  end.
End EqualFold.

End strings.

(** ** The package [net/netip], as far as [IsLess] uses it *)

Module netip.

(** The zone marker of an address: [z0] is the zero [Addr] (invalid), [z4] an
    IPv4 address, [z6 zone] an IPv6 address ([z6 ""] is Go's [z6noz]). *)
Inductive zone : Type :=
| z0
| z4
| z6 (name : string).

(** [Addr]: a 128-bit number as two 64-bit halves, and the zone marker. *)
Record Addr : Type := mkAddr { hi : Z; lo : Z; z : zone }.

Inductive error : Type := parseAddrError.

(** [Addr{}] *)
Definition zero : Addr := {| hi := 0; lo := 0; z := z0 |}.

Definition IsValid (ip : Addr) : bool :=
  match z ip with z0 => false | _ => true end.

Definition BitLen (ip : Addr) : Z :=
  match z ip with z0 => 0 | z4 => 32 | z6 _ => 128 end.

Definition Is6 (ip : Addr) : bool :=
  match z ip with z6 _ => true | _ => false end.

Definition Zone (ip : Addr) : string :=
  match z ip with z6 name => name | _ => "" end.

(** [Addr.Compare]: by bit length, then by the number, then (IPv6) by zone. *)
Definition Compare (ip ip2 : Addr) : Z :=
  let f1 := BitLen ip in
  let f2 := BitLen ip2 in
  if (f1 <? f2)%Z then -1
  else if (f2 <? f1)%Z then 1
  else if (hi ip <? hi ip2)%Z then -1
  else if (hi ip2 <? hi ip)%Z then 1
  else if (lo ip <? lo ip2)%Z then -1
  else if (lo ip2 <? lo ip)%Z then 1
  else if Is6 ip then
    if GoString.lt (Zone ip) (Zone ip2) then -1
    else if GoString.lt (Zone ip2) (Zone ip) then 1
    else 0
  else 0.

(** [Addr.Less] *)
Definition Less (ip ip2 : Addr) : bool := (Compare ip ip2 =? -1)%Z.

(** [AddrFrom4]: the IPv4-mapped number [::ffff:a.b.c.d] with marker [z4]. *)
Definition AddrFrom4 (fields : list Z) : Addr :=
  {| hi := 0;
     lo := Z.lor 0xffff00000000
             (Z.lor (Z.shiftl (nth 0 fields 0%Z) 24)
                (Z.lor (Z.shiftl (nth 1 fields 0%Z) 16)
                   (Z.lor (Z.shiftl (nth 2 fields 0%Z) 8) (nth 3 fields 0%Z))));
     z := z4 |}.

Definition is_digit (c : ascii) : bool :=
  (48 <=? GoString.byte c)%N && (GoString.byte c <=? 57)%N.

(** The loop of [parseIPv4] over the bytes [s[i:]]: [prev] is [s[i-1]]
    ([None] when [i = 0]); [val], [pos], [digLen] and [fields] are the loop's
    variables.  [None] is a parse error. *)
Fixpoint parseIPv4_loop (rest : string) (prev : option ascii)
    (val : Z) (pos digLen : nat) (fields : list Z) : option (list Z) :=
  match rest with
  | EmptyString =>
      if (pos <? 3)%nat then None (* too short *)
      else Some (<[3%nat := val]> fields)
  | String c rest' =>
      if is_digit c then
        if (digLen =? 1)%nat && (val =? 0)%Z then None (* leading zero *)
        else
          let val := (val * 10 + Z.of_N (GoString.byte c) - 48)%Z in
          if (255 <? val)%Z then None (* value > 255 *)
          else parseIPv4_loop rest' (Some c) val pos (S digLen) fields
      else if Ascii.eqb c "." then
        (* i == 0 || i == len(s)-1 || s[i-1] == '.' *)
        if match prev with None => true | Some p => Ascii.eqb p "." end
           || match rest' with EmptyString => true | _ => false end
        then None (* field without a digit *)
        else if (pos =? 3)%nat then None (* too long *)
        else parseIPv4_loop rest' (Some c) 0 (S pos) 0 (<[pos := val]> fields)
      else None (* unexpected character *)
  end.

Definition parseIPv4 (s : string) : Addr * option error :=
  match parseIPv4_loop s None 0 0 0 [0; 0; 0; 0]%Z with
  | Some fields => (AddrFrom4 fields, None)
  | None => (zero, Some parseAddrError)
  end.

(** [ParseAddr]: the first of ['.'], [':'] and ['%'] in [s] decides how [s] is
    read.  The IPv6 parser is the variable [parseIPv6]. *)
Section ParseAddr.
Variable parseIPv6 : string -> Addr * option error.

Fixpoint ParseAddr_scan (s rest : string) : Addr * option error :=
  match rest with
  | EmptyString => (zero, Some parseAddrError) (* unable to parse IP *)
  | String c rest' =>
      if Ascii.eqb c "." then parseIPv4 s
      else if Ascii.eqb c ":" then parseIPv6 s
      else if Ascii.eqb c "%" then (zero, Some parseAddrError)
      else ParseAddr_scan s rest'
  end.

Definition ParseAddr (s : string) : Addr * option error := ParseAddr_scan s s.
End ParseAddr.

End netip.

(** ** Memory: string cells and slice headers *)

(** The heap is the sequence of all string cells; a backing array is a run of
    consecutive cells. *)
Abbreviation Heap := (list string) (only parsing).

(** A slice header: the index of its first cell and its length. *)
Record slice : Type := mkSlice { ptr : nat; len : nat }.

(** The cells of [t], in order: what [for _, e := range t] visits. *)
Definition elems (h : Heap) (t : slice) : list string :=
  take (len t) (drop (ptr t) h).

(** [t[i]], bounds-checked against [len(t)]. *)
Definition index (h : Heap) (t : slice) (i : nat) : option string :=
  if (i <? len t)%nat then h !! (ptr t + i)%nat else None.

(** [t[i]] where the caller keeps [i] below [len(t)]. *)
Definition cell (h : Heap) (t : slice) (i : nat) : string :=
  default "" (h !! (ptr t + i)%nat).

(** [t[i] = x] *)
Definition set_cell (h : Heap) (t : slice) (i : nat) (x : string) : Heap :=
  <[(ptr t + i)%nat := x]> h.

(** The header lies inside the heap. *)
Definition valid (h : Heap) (t : slice) : Prop := (ptr t + len t <= length h)%nat.

(** Two headers share no cell. *)
Definition disjoint (t o : slice) : Prop :=
  (ptr t + len t <= ptr o)%nat \/ (ptr o + len o <= ptr t)%nat.

(** ** The package [sort] *)

Module sort.

(** [sort.Interface] over a store of type [St]: [Swap] returns the new store. *)
Record Interface (St : Type) : Type := mkInterface {
  Len : St -> nat;
  Less : St -> nat -> nat -> bool;
  Swap : St -> nat -> nat -> St
}.
Arguments Len {St} _ _.
Arguments Less {St} _ _ _ _.
Arguments Swap {St} _ _ _ _.

Section Sorting.
Context {St : Type} (data : Interface St).

(** [for j := i; j > a && data.Less(j, j-1); j-- { data.Swap(j, j-1) }] *)
Fixpoint insertionSort_inner (a : nat) (st : St) (j : nat) : St :=
  match j with
  | O => st
  | S j' =>
      if (a <? j)%nat && Less data st j j'
      then insertionSort_inner a (Swap data st j j') j'
      else st
  end.

(** [for i := a + 1; i < b; i++ { ... }], with [n] rounds left. *)
Fixpoint insertionSort_outer (a : nat) (st : St) (i n : nat) : St :=
  match n with
  | O => st
  | S n' => insertionSort_outer a (insertionSort_inner a st i) (S i) n'
  end.

Definition insertionSort (st : St) (a b : nat) : St :=
  insertionSort_outer a st (a + 1) (b - (a + 1)).

(** [sort.Stable] and [sort.Sort] are the package's insertion sort here.  Go
    runs exactly this on short ranges; on longer ones it merges or
    partitions, and leaves the same array whenever [Less] is a strict total
    order under which elements that compare equal are identical, as
    [Targets.Less] is: a sequence has one ascending arrangement. *)
Definition Stable (st : St) : St := insertionSort st 0 (Len data st).
Definition Sort (st : St) : St := insertionSort st 0 (Len data st).
End Sorting.

End sort.

(** ** [Targets] *)

Module Targets.

(** [NewTargets]: a fresh slice holding the arguments. *)
Definition NewTargets (target : list string) : list string := [] ++ target.

(** [Targets.String] *)
Definition String (t : list string) : string := String.concat ";" t.

Definition Len (t : slice) : nat := len t.

(** [t[i] < t[j]] *)
Definition Less (h : Heap) (t : slice) (i j : nat) : bool :=
  GoString.lt (cell h t i) (cell h t j).

(** [t[i], t[j] = t[j], t[i]] *)
Definition Swap (h : Heap) (t : slice) (i j : nat) : Heap :=
  let ti := cell h t i in
  let tj := cell h t j in
  set_cell (set_cell h t i tj) t j ti.

(** [Targets] as a [sort.Interface] over the heap. *)
Definition Interface (t : slice) : sort.Interface Heap :=
  {| sort.Len := fun _ => Len t; sort.Less := fun h => Less h t; sort.Swap := fun h => Swap h t |}.

Section Compare.
Variable hasUnicode : string -> string -> bool.
Variable parseIPv6 : string -> netip.Addr * option netip.error.

(** The loop of [Same]: [es] are the elements of [t] still to visit, [i] the
    index of the first of them. *)
Fixpoint Same_range (h : Heap) (o : slice) (es : list string) (i : nat) : option bool :=
  match es with
  | [] => Some true
  | e :: es' =>
      match index h o i with
      | None => None
      | Some oi =>
          if negb (strings.EqualFold hasUnicode e oi) then Some false
          else Same_range h o es' (S i)
      end
  end.

(** [Targets.Same]: the result and the heap after the call. *)
Definition Same (h : Heap) (t o : slice) : option bool * Heap :=
  if negb (len t =? len o)%nat then (Some false, h)
  else
    let h1 := sort.Stable (Interface t) h in
    let h2 := sort.Stable (Interface o) h1 in
    (Same_range h2 o (elems h2 t) 0, h2).

(** The [switch] of [IsLess] on the first pair that differs. *)
Definition prefer (e oi : string) : bool :=
  let ipA := fst (netip.ParseAddr parseIPv6 e) in
  let ipB := fst (netip.ParseAddr parseIPv6 oi) in
  if netip.IsValid ipA && netip.IsValid ipB then netip.Less ipA ipB
  else if netip.IsValid ipA && negb (netip.IsValid ipB) then true
  else if negb (netip.IsValid ipA) && netip.IsValid ipB then false
  else GoString.lt e oi.

(** The loop of [IsLess]. *)
Fixpoint IsLess_range (h : Heap) (o : slice) (es : list string) (i : nat) : option bool :=
  match es with
  | [] => Some false
  | e :: es' =>
      match index h o i with
      | None => None
      | Some oi =>
          if negb (String.eqb e oi) then Some (prefer e oi)
          else IsLess_range h o es' (S i)
      end
  end.

(** [Targets.IsLess]: the result and the heap after the call. *)
Definition IsLess (h : Heap) (t o : slice) : option bool * Heap :=
  if (len t <? len o)%nat then (Some true, h)
  else if (len o <? len t)%nat then (Some false, h)
  else
    let h1 := sort.Sort (Interface t) h in
    let h2 := sort.Sort (Interface o) h1 in
    (IsLess_range h2 o (elems h2 t) 0, h2).
End Compare.

End Targets.

(** ** [TTL], [ProviderSpecific], [EndpointKey] and [Endpoint] *)

(** [TTL] is an [int64]; nothing below computes with it. *)
Definition TTL : Type := Z.

(** [TTL.IsConfigured] *)
Definition TTL_IsConfigured (ttl : TTL) : bool := (0 <? ttl)%Z.

Module ProviderSpecificProperty.
Record t : Type := mk { Name : string; Value : string }.
End ProviderSpecificProperty.

Module EndpointKey.
Record t : Type := mk { DNSName : string; RecordType : string; SetIdentifier : string }.

#[global] Instance eq_dec : EqDecision t.
Proof. solve_decision. Defined.

#[global] Instance countable : Countable t.
Proof.
  refine (inj_countable'
            (fun k => (DNSName k, RecordType k, SetIdentifier k))
            (fun p => mk p.1.1 p.1.2 p.2) _).
  intros []; reflexivity.
Defined.
End EndpointKey.

Module Endpoint.

(** [Targets] are the elements of the endpoint's slice; [Labels] is Go's
    [map[string]string] (a nil map reads as the empty one). *)
Record t : Type := mk {
  DNSName : string;
  Targets : list string;
  RecordType : string;
  SetIdentifier : string;
  RecordTTL : TTL;
  Labels : gmap string string;
  ProviderSpecific : list ProviderSpecificProperty.t
}.

Definition with_SetIdentifier (e : t) (setIdentifier : string) : t :=
  mk (DNSName e) (Targets e) (RecordType e) setIdentifier (RecordTTL e)
     (Labels e) (ProviderSpecific e).

Definition with_ProviderSpecific (e : t) (ps : list ProviderSpecificProperty.t) : t :=
  mk (DNSName e) (Targets e) (RecordType e) (SetIdentifier e) (RecordTTL e)
     (Labels e) ps.

(** [WithSetIdentifier]: the endpoint after the call. *)
Definition WithSetIdentifier (e : t) (setIdentifier : string) : t :=
  with_SetIdentifier e setIdentifier.

(** The index [i] at which [for i, providerSpecific := range ...] first
    finds [providerSpecific.Name == key]; [None] when the loop runs out. *)
Fixpoint find_Name (ps : list ProviderSpecificProperty.t) (key : string) : option nat :=
  match ps with
  | [] => None
  | p :: ps' =>
      if String.eqb (ProviderSpecificProperty.Name p) key then Some 0%nat
      else S <$> find_Name ps' key
  end.

(** [GetProviderSpecificProperty] *)
Fixpoint Get_range (ps : list ProviderSpecificProperty.t) (key : string) : string * bool :=
  match ps with
  | [] => ("", false)
  | p :: ps' =>
      if String.eqb (ProviderSpecificProperty.Name p) key
      then (ProviderSpecificProperty.Value p, true)
      else Get_range ps' key
  end.
Definition GetProviderSpecificProperty (e : t) (key : string) : string * bool :=
  Get_range (ProviderSpecific e) key.

(** [SetProviderSpecificProperty]: the endpoint after the call. *)
Definition SetProviderSpecificProperty (e : t) (key value : string) : t :=
  match find_Name (ProviderSpecific e) key with
  | Some i =>
      with_ProviderSpecific e
        (<[i := ProviderSpecificProperty.mk key value]> (ProviderSpecific e))
  | None =>
      with_ProviderSpecific e
        (ProviderSpecific e ++ [ProviderSpecificProperty.mk key value])
  end.

(** [WithProviderSpecific] *)
Definition WithProviderSpecific (e : t) (key value : string) : t :=
  SetProviderSpecificProperty e key value.

(** [DeleteProviderSpecificProperty]:
    [append(e.ProviderSpecific[:i], e.ProviderSpecific[i+1:]...)]. *)
Definition DeleteProviderSpecificProperty (e : t) (key : string) : t :=
  match find_Name (ProviderSpecific e) key with
  | Some i =>
      with_ProviderSpecific e
        (take i (ProviderSpecific e) ++ drop (S i) (ProviderSpecific e))
  | None => e
  end.

(** [Key] *)
Definition Key (e : t) : EndpointKey.t :=
  {| EndpointKey.DNSName := DNSName e;
     EndpointKey.RecordType := RecordType e;
     EndpointKey.SetIdentifier := SetIdentifier e |}.

Section Labels.
(** [OwnerLabelKey] and [NewLabels] are declared in the package's
    [labels.go]; the functions below take them as they are. *)
Variable OwnerLabelKey : string.
Variable NewLabels : gmap string string.

(** [IsOwnedBy] *)
Definition IsOwnedBy (e : t) (ownerID : string) : bool :=
  match Labels e !! OwnerLabelKey with
  | Some endpointOwner => String.eqb endpointOwner ownerID
  | None => false
  end.

(** The loop of [NewEndpointWithTTL] over the labels: [true] when one is
    longer than 63 bytes. *)
Fixpoint label_too_long (labels : list string) : bool :=
  match labels with
  | [] => false
  | label :: labels' =>
      if (63 <? String.length label)%nat then true else label_too_long labels'
  end.

(** [NewEndpointWithTTL]: [None] is the nil pointer. *)
Definition NewEndpointWithTTL (dnsName recordType : string) (ttl : TTL)
    (targets : list string) : option t :=
  let cleanTargets := map (fun target => strings.TrimSuffix target ".") targets in
  if label_too_long (strings.Split dnsName ".") then None
  else Some {| DNSName := strings.TrimSuffix dnsName ".";
               Targets := cleanTargets;
               RecordType := recordType;
               SetIdentifier := "";
               RecordTTL := ttl;
               Labels := NewLabels;
               ProviderSpecific := [] |}.

(** [NewEndpoint] *)
Definition NewEndpoint (dnsName recordType : string) (targets : list string) : option t :=
  NewEndpointWithTTL dnsName recordType 0%Z targets.

(** The key [FilterEndpointsByOwnerID] builds for itself. *)
Definition filter_key (ep : t) : EndpointKey.t :=
  EndpointKey.mk (DNSName ep) (RecordType ep) (SetIdentifier ep).

(** The loop of [FilterEndpointsByOwnerID].  The elements of [eps] are the
    endpoints the (non-nil) pointers of the Go slice point to. *)
Fixpoint Filter_range (ownerID : string) (eps : list t)
    (filtered : list t) (visited : gmap EndpointKey.t bool) : list t :=
  match eps with
  | [] => filtered
  | ep :: eps' =>
      let key := filter_key ep in
      if default false (visited !! key) then Filter_range ownerID eps' filtered visited
      else
        let filtered' : list t :=
          match Labels ep !! OwnerLabelKey with
          | None => filtered
          | Some endpointOwner =>
              if negb (String.eqb endpointOwner ownerID) then filtered
              else filtered ++ [ep]
          end in
        Filter_range ownerID eps' filtered' (<[key := true]> visited)
  end.

Definition FilterEndpointsByOwnerID (ownerID : string) (eps : list t) : list t :=
  Filter_range ownerID eps [] ∅.
End Labels.

End Endpoint.

(** ** Instances of the section variables

    They stand for the variables where a statement is checked on concrete
    inputs.  None of those inputs holds a byte outside ASCII or a [':'], so
    their evaluation calls neither [hasUnicode] nor [parseIPv6]. *)

Module Standin.
Definition hasUnicode (s t : string) : bool := String.eqb s t.
Definition parseIPv6 (s : string) : netip.Addr * option netip.error :=
  (netip.zero, Some netip.parseAddrError).
Definition OwnerLabelKey : string := "owner".
Definition NewLabels : gmap string string := ∅.
End Standin.

(** ** The vocabulary of the statements *)

(** [st] is [l] in ascending order. *)
Definition ascending (l st : list string) : Prop :=
  Sorted GoString.le st /\ st ≡ₚ l.

(** The first pair at which two lists differ. *)
Fixpoint first_difference (st so : list string) : option (string * string) :=
  match st, so with
  | e :: st', e' :: so' =>
      if String.eqb e e' then first_difference st' so' else Some (e, e')
  | _, _ => None
  end.

(** What the loop of [Same] computes. *)
Fixpoint pairwise_fold (hasUnicode : string -> string -> bool)
    (es os : list string) : bool :=
  match es, os with
  | e :: es', oi :: os' =>
      strings.EqualFold hasUnicode e oi && pairwise_fold hasUnicode es' os'
  | _, _ => true
  end.

(** [s] holds the byte [c]. *)
Fixpoint has_byte (c : ascii) (s : string) : bool :=
  match s with
  | EmptyString => false
  | String c' s' => Ascii.eqb c' c || has_byte c s'
  end.

(** [label] is one of the dot-separated labels of [name]: [name] is cut, in
    the one possible way, into pieces without a dot that are joined by dots,
    and [label] is one of the pieces. *)
Definition dns_label (name label : string) : Prop :=
  exists labels : list string,
    labels <> []
    /\ Forall (fun x => has_byte "." x = false) labels
    /\ String.concat "." labels = name
    /\ label ∈ labels.

Abbreviation Property := ProviderSpecificProperty.t.
Abbreviation Name := ProviderSpecificProperty.Name.
Abbreviation Value := ProviderSpecificProperty.Value.

(** The names of the overlay, in order. *)
Definition names (e : Endpoint.t) : list string :=
  Name <$> Endpoint.ProviderSpecific e.

(** A call on the overlay. *)
Inductive overlay_call : Type :=
| CallSet (key value : string)
| CallDelete (key : string).

Definition call (e : Endpoint.t) (c : overlay_call) : Endpoint.t :=
  match c with
  | CallSet key value => Endpoint.SetProviderSpecificProperty e key value
  | CallDelete key => Endpoint.DeleteProviderSpecificProperty e key
  end.

Definition calls (e : Endpoint.t) (cs : list overlay_call) : Endpoint.t :=
  foldl call e cs.

(** The endpoints [FilterEndpointsByOwnerID] is to keep: the element at
    index [i] is kept when no element before it has its key and its
    owner label is [ownerID]. *)
Definition first_and_owned (OwnerLabelKey ownerID : string) (eps : list Endpoint.t)
    (p : nat * Endpoint.t) : Prop :=
  (Endpoint.Key p.2 ∉ (Endpoint.Key <$> take p.1 eps))
  /\ Endpoint.Labels p.2 !! OwnerLabelKey = Some ownerID.

#[global] Instance first_and_owned_dec (OwnerLabelKey ownerID : string)
  (eps : list Endpoint.t) (p : nat * Endpoint.t) :
  Decision (first_and_owned OwnerLabelKey ownerID eps p).
Proof. unfold first_and_owned. apply _. Defined.

Definition kept_from (OwnerLabelKey ownerID : string) (all : list Endpoint.t)
    (start : nat) (eps : list Endpoint.t) : list Endpoint.t :=
  (filter (first_and_owned OwnerLabelKey ownerID all)
     (imap (fun i ep => ((start + i)%nat, ep)) eps)).*2.

Definition kept (OwnerLabelKey ownerID : string) (eps : list Endpoint.t) : list Endpoint.t :=
  kept_from OwnerLabelKey ownerID eps 0 eps.

(** An endpoint with the overlay [("a", "1"); ("k", "v1")]. *)
Definition sample : Endpoint.t :=
  Endpoint.mk "example.org" ["1.2.3.4"] "A" "" 0%Z Standin.NewLabels
    [ProviderSpecificProperty.mk "a" "1"; ProviderSpecificProperty.mk "k" "v1"].

(** [s] cannot be read as an address: it holds no [':'] and no ['%'], and
    some byte of it is neither a digit nor a dot (a letter or a hyphen of a
    host name, say). *)
Definition not_address (s : string) : Prop :=
  has_byte ":" s = false
  /\ has_byte "%" s = false
  /\ exists c : ascii,
       has_byte c s = true /\ netip.is_digit c = false /\ c <> "."%char.

(** The overlay [SetProviderSpecificProperty] and
    [DeleteProviderSpecificProperty] leave, as lists. *)
Definition overlay_set (ps : list Property) (key value : string) : list Property :=
  match Endpoint.find_Name ps key with
  | Some i => <[i := ProviderSpecificProperty.mk key value]> ps
  | None => ps ++ [ProviderSpecificProperty.mk key value]
  end.

Definition overlay_delete (ps : list Property) (key : string) : list Property :=
  match Endpoint.find_Name ps key with
  | Some i => take i ps ++ drop (S i) ps
  | None => ps
  end.

(** The elements of [l] at the positions that [mask] marks. *)
Fixpoint select {A : Type} (mask : list bool) (l : list A) : list A :=
  match mask, l with
  | b :: mask', x :: l' => if b then x :: select mask' l' else select mask' l'
  | _, _ => []
  end.

(** [e'] is [e] after some calls on its overlay. *)
Definition overlay_updated (e e' : Endpoint.t) : Prop :=
  exists cs : list overlay_call, e' = calls e cs.

(** An endpoint owned by "x" whose overlay holds the name "k" twice. *)
Definition doubled : Endpoint.t :=
  Endpoint.mk "a.com" ["1.1.1.1"] "A" "" 0%Z {[ "owner" := "x" ]}
    [ProviderSpecificProperty.mk "k" "1"; ProviderSpecificProperty.mk "k" "2"].

(** * Part II: facts about the embedding *)

(** ** The order of Go strings is a total order *)

Lemma ascii_compare_refl (c : ascii) : Ascii.compare c c = Eq.
Proof. unfold Ascii.compare. apply N.compare_refl. Qed.

Lemma ascii_compare_lt_trans (a b c : ascii) :
  Ascii.compare a b = Lt -> Ascii.compare b c = Lt -> Ascii.compare a c = Lt.
Proof.
  unfold Ascii.compare. rewrite !N.compare_lt_iff. apply N.lt_trans.
Qed.

Lemma string_compare_refl (s : string) : String.compare s s = Eq.
Proof.
  induction s as [|c s IH]; simpl; [reflexivity|].
  now rewrite ascii_compare_refl.
Qed.

Lemma string_compare_eq (s1 s2 : string) : String.compare s1 s2 = Eq <-> s1 = s2.
Proof.
  split; [apply String.compare_eq_iff|intros ->; apply string_compare_refl].
Qed.

Lemma string_compare_lt_trans (s1 s2 s3 : string) :
  String.compare s1 s2 = Lt -> String.compare s2 s3 = Lt ->
  String.compare s1 s3 = Lt.
Proof.
  revert s2 s3.
  induction s1 as [|a s1 IH]; intros [|b s2] [|c s3]; simpl; try congruence.
  destruct (Ascii.compare a b) eqn:Hab; try discriminate.
  - apply Ascii.compare_eq_iff in Hab; subst b.
    destruct (Ascii.compare a c); try congruence. apply IH.
  - intros _.
    destruct (Ascii.compare b c) eqn:Hbc; try discriminate.
    + apply Ascii.compare_eq_iff in Hbc; subst c. now rewrite Hab.
    + intros _. now rewrite (ascii_compare_lt_trans _ _ _ Hab Hbc).
Qed.

Lemma lt_irrefl (s : string) : GoString.lt s s = false.
Proof. unfold GoString.lt, String.ltb. now rewrite string_compare_refl. Qed.

Lemma lt_asym (a b : string) : GoString.lt a b = true -> GoString.lt b a = false.
Proof.
  unfold GoString.lt, String.ltb. rewrite (String.compare_antisym b a).
  destruct (String.compare a b); simpl; congruence.
Qed.

Lemma lt_trans (a b c : string) :
  GoString.lt a b = true -> GoString.lt b c = true -> GoString.lt a c = true.
Proof.
  unfold GoString.lt, String.ltb.
  destruct (String.compare a b) eqn:Hab; try discriminate.
  destruct (String.compare b c) eqn:Hbc; try discriminate.
  now rewrite (string_compare_lt_trans _ _ _ Hab Hbc).
Qed.

Lemma lt_connected (a b : string) :
  GoString.lt a b = false -> GoString.lt b a = false -> a = b.
Proof.
  unfold GoString.lt, String.ltb. rewrite (String.compare_antisym b a).
  destruct (String.compare a b) eqn:Hab; simpl; try discriminate.
  intros _ _. now apply string_compare_eq.
Qed.

#[global] Instance le_dec : RelDecision GoString.le.
Proof. intros a b. unfold GoString.le. apply _. Defined.

#[global] Instance le_refl : Reflexive GoString.le.
Proof. intros s. apply lt_irrefl. Qed.

#[global] Instance le_antisym : AntiSymm (=) GoString.le.
Proof. intros a b Hab Hba. now apply lt_connected. Qed.

#[global] Instance le_total : Total GoString.le.
Proof.
  intros a b. unfold GoString.le.
  destruct (GoString.lt b a) eqn:Hba; [right; now apply lt_asym|now left].
Qed.

#[global] Instance le_trans : Transitive GoString.le.
Proof.
  intros a b c Hab Hbc. unfold GoString.le in *.
  destruct (GoString.lt c a) eqn:Hca; [|reflexivity].
  destruct (GoString.lt b c) eqn:Hcb.
  - now rewrite (lt_trans _ _ _ Hcb Hca) in Hab.
  - rewrite (lt_connected _ _ Hcb Hbc) in Hab. congruence.
Qed.

Lemma ascending_unique (l st st' : list string) :
  ascending l st -> ascending l st' -> st = st'.
Proof.
  intros [Hs Hp] [Hs' Hp']. apply (Sorted_unique GoString.le); auto.
  now rewrite Hp, Hp'.
Qed.

Lemma ascending_length (l st : list string) : ascending l st -> length st = length l.
Proof. intros [_ Hp]. now rewrite Hp. Qed.

Lemma ascending_sorted (l : list string) : Sorted GoString.le l -> ascending l l.
Proof. now split. Qed.

(** ** Slices of a heap *)

Lemma elems_frame (A l B : list string) (t : slice) :
  length A = ptr t -> length l = len t -> elems (A ++ l ++ B) t = l.
Proof.
  intros HA Hl. unfold elems.
  rewrite <- HA, drop_app_length, <- Hl. apply take_app_length.
Qed.

Lemma valid_split (h : Heap) (t : slice) :
  valid h t ->
  h = take (ptr t) h ++ elems h t ++ drop (ptr t + len t) h
  /\ length (take (ptr t) h) = ptr t /\ length (elems h t) = len t.
Proof.
  unfold valid, elems. intros Hv. split; [|split].
  - rewrite <- drop_drop, take_drop. now rewrite take_drop.
  - rewrite length_take. lia.
  - rewrite length_take, length_drop. lia.
Qed.

Lemma index_elems (h : Heap) (t : slice) (i : nat) :
  index h t i = elems h t !! i.
Proof.
  unfold index, elems.
  destruct (Nat.ltb_spec i (len t)) as [Hlt|Hge].
  - now rewrite lookup_take_lt, lookup_drop.
  - symmetry. apply lookup_ge_None. rewrite length_take. lia.
Qed.

Lemma cell_frame (A l B : list string) (t : slice) (i : nat) :
  length A = ptr t -> (i < length l)%nat ->
  cell (A ++ l ++ B) t i = default "" (l !! i).
Proof.
  intros HA Hi. unfold cell. rewrite <- HA.
  rewrite lookup_app_r by lia.
  replace (length A + i - length A)%nat with i by lia.
  now rewrite lookup_app_l.
Qed.

Lemma set_cell_frame (A l B : list string) (t : slice) (i : nat) (x : string) :
  length A = ptr t -> (i < length l)%nat ->
  set_cell (A ++ l ++ B) t i x = A ++ <[i := x]> l ++ B.
Proof.
  intros HA Hi. unfold set_cell. rewrite <- HA.
  rewrite insert_app_r. now rewrite insert_app_l.
Qed.

(** ** The insertion sort, run through [Targets.Interface], sorts in place *)

Section SortFacts.
Variable t : slice.

Lemma Less_frame (A l B : list string) (i j : nat) :
  length A = ptr t -> (i < length l)%nat -> (j < length l)%nat ->
  Targets.Less (A ++ l ++ B) t i j
  = GoString.lt (default "" (l !! i)) (default "" (l !! j)).
Proof.
  intros HA Hi Hj. unfold Targets.Less. now rewrite !cell_frame.
Qed.

Lemma Swap_adjacent (A pre : list string) (y x : string) (post B : list string) :
  length A = ptr t ->
  Targets.Swap (A ++ (pre ++ y :: x :: post) ++ B) t (S (length pre)) (length pre)
  = A ++ (pre ++ x :: y :: post) ++ B.
Proof.
  intros HA. unfold Targets.Swap.
  assert (Hlen : (S (length pre) < length (pre ++ y :: x :: post))%nat)
    by (rewrite length_app; simpl; lia).
  rewrite !cell_frame by (auto; lia).
  rewrite set_cell_frame by (auto; lia).
  rewrite set_cell_frame by (auto; rewrite length_insert; lia).
  f_equal. f_equal.
  rewrite lookup_app_r by lia.
  replace (S (length pre) - length pre)%nat with 1%nat by lia.
  rewrite list_lookup_middle by reflexivity. simpl.
  replace (S (length pre)) with (length pre + 1)%nat by lia.
  rewrite insert_app_r. simpl.
  replace (length pre) with (length pre + 0)%nat at 1 by lia.
  now rewrite insert_app_r.
Qed.

(** The inner loop inserts the element after a sorted prefix into it. *)
Lemma inner_spec (pre : list string) :
  forall (x : string) (post A B : list string),
    length A = ptr t ->
    StronglySorted GoString.le pre ->
    exists r,
      sort.insertionSort_inner (Targets.Interface t) 0
        (A ++ (pre ++ x :: post) ++ B) (length pre)
      = A ++ (r ++ post) ++ B
      /\ StronglySorted GoString.le r /\ r ≡ₚ pre ++ [x].
Proof.
  induction pre as [|y pre IH] using rev_ind; intros x post A B HA Hs.
  - exists [x]. simpl. repeat split; auto.
    apply StronglySorted_cons. split; constructor.
  - apply StronglySorted_app in Hs as (Hle & Hpre & _).
    rewrite length_app. simpl. rewrite Nat.add_1_r. simpl.
    rewrite <- (app_assoc pre [y] (x :: post)). simpl.
    rewrite Less_frame by (auto; rewrite length_app; simpl; lia).
    rewrite lookup_app_r by lia.
    replace (S (length pre) - length pre)%nat with 1%nat by lia.
    rewrite list_lookup_middle by reflexivity. simpl.
    destruct (GoString.lt x y) eqn:Hxy.
    + rewrite Swap_adjacent by assumption.
      destruct (IH x (y :: post) A B HA Hpre) as (r & Hr & Hsr & Hpr).
      exists (r ++ [y]). rewrite Hr. repeat split.
      * now rewrite <- (app_assoc r [y] post).
      * apply StronglySorted_app_2; auto.
        -- intros a b Ha Hb. apply list_elem_of_singleton in Hb; subst b.
           rewrite Hpr in Ha. apply elem_of_app in Ha as [Ha|Ha].
           ++ apply Hle; [assumption|now apply list_elem_of_singleton].
           ++ apply list_elem_of_singleton in Ha; subst a.
              now apply lt_asym.
        -- apply StronglySorted_cons. split; constructor.
      * rewrite Hpr. rewrite <- !app_assoc. simpl.
        apply Permutation_app_head. apply perm_swap.
    + exists ((pre ++ [y]) ++ [x]). repeat split.
      * now rewrite <- !app_assoc.
      * apply StronglySorted_app_2.
        -- intros a b Ha Hb. apply list_elem_of_singleton in Hb; subst b.
           apply elem_of_app in Ha as [Ha|Ha].
           ++ transitivity y; [|exact Hxy].
              apply Hle; [assumption|now apply list_elem_of_singleton].
           ++ apply list_elem_of_singleton in Ha; subst a. exact Hxy.
        -- apply StronglySorted_app_2; auto.
           apply StronglySorted_cons. split; constructor.
        -- apply StronglySorted_cons. split; constructor.
      * reflexivity.
Qed.

(** The outer loop extends the sorted prefix one element at a time. *)
Lemma outer_spec (rest : list string) :
  forall (pre A B : list string),
    length A = ptr t ->
    StronglySorted GoString.le pre ->
    exists r,
      sort.insertionSort_outer (Targets.Interface t) 0
        (A ++ (pre ++ rest) ++ B) (length pre) (length rest)
      = A ++ r ++ B
      /\ StronglySorted GoString.le r /\ r ≡ₚ pre ++ rest.
Proof.
  induction rest as [|x rest IH]; intros pre A B HA Hs.
  - exists pre. simpl. rewrite app_nil_r. auto.
  - simpl.
    destruct (inner_spec pre x rest A B HA Hs) as (r & Hr & Hsr & Hpr).
    rewrite Hr.
    replace (S (length pre)) with (length r)
      by (rewrite Hpr, length_app; simpl; lia).
    destruct (IH r A B HA Hsr) as (r' & Hr' & Hsr' & Hpr').
    exists r'. repeat split; auto.
    rewrite Hpr', Hpr. now rewrite <- app_assoc.
Qed.

Lemma insertionSort_spec (A l B : list string) :
  length A = ptr t -> length l = len t ->
  exists r,
    sort.insertionSort (Targets.Interface t) (A ++ l ++ B) 0 (len t) = A ++ r ++ B
    /\ ascending l r.
Proof.
  intros HA Hl. unfold sort.insertionSort. simpl.
  destruct l as [|x rest].
  - simpl in Hl. rewrite <- Hl. simpl. exists []. repeat split; auto.
  - simpl in Hl. rewrite <- Hl. simpl. rewrite Nat.sub_0_r.
    assert (Hs : StronglySorted GoString.le [x])
      by (apply StronglySorted_cons; split; constructor).
    destruct (outer_spec rest [x] A B HA Hs) as (r & Hr & Hsr & Hpr).
    simpl in Hr. exists r. repeat split; auto.
    now apply StronglySorted_Sorted.
Qed.
End SortFacts.

(** [sort.Sort] and [sort.Stable] on a valid slice: the cells of the slice
    end up in ascending order, every other cell keeps its value. *)
Lemma Sort_spec (h : Heap) (t : slice) :
  valid h t ->
  exists r,
    sort.Sort (Targets.Interface t) h
    = take (ptr t) h ++ r ++ drop (ptr t + len t) h
    /\ ascending (elems h t) r.
Proof.
  intros Hv. destruct (valid_split h t Hv) as (Hh & HA & Hl).
  unfold sort.Sort. simpl. unfold Targets.Len.
  pose proof (insertionSort_spec t _ _ (drop (ptr t + len t) h) HA Hl) as Hsort.
  now rewrite <- Hh in Hsort.
Qed.

Lemma Stable_Sort (h : Heap) (t : slice) :
  sort.Stable (Targets.Interface t) h = sort.Sort (Targets.Interface t) h.
Proof. reflexivity. Qed.

Lemma Sort_split (h : Heap) (t : slice) :
  valid h t ->
  exists A l r B,
    h = A ++ l ++ B /\ sort.Sort (Targets.Interface t) h = A ++ r ++ B
    /\ length A = ptr t /\ length l = len t /\ length r = len t
    /\ l = elems h t /\ ascending l r.
Proof.
  intros Hv. destruct (valid_split h t Hv) as (Hh & HA & Hl).
  destruct (Sort_spec h t Hv) as (r & Hr & Hasc).
  exists (take (ptr t) h), (elems h t), r, (drop (ptr t + len t) h).
  repeat split; auto; try apply Hasc.
  now rewrite (ascending_length _ _ Hasc).
Qed.

Lemma Sort_elems (h : Heap) (t : slice) :
  valid h t -> ascending (elems h t) (elems (sort.Sort (Targets.Interface t) h) t).
Proof.
  intros Hv.
  destruct (Sort_split h t Hv) as (A & l & r & B & Hh & Hh' & HA & Hl & Hr & Hel & Hasc).
  rewrite Hh', elems_frame by assumption. now rewrite <- Hel.
Qed.

Lemma Sort_length (h : Heap) (t : slice) :
  valid h t -> length (sort.Sort (Targets.Interface t) h) = length h.
Proof.
  intros Hv.
  destruct (Sort_split h t Hv) as (A & l & r & B & Hh & Hh' & HA & Hl & Hr & Hel & Hasc).
  subst h. rewrite Hh', !length_app. lia.
Qed.

Lemma Sort_valid (h : Heap) (t o : slice) :
  valid h t -> valid h o -> valid (sort.Sort (Targets.Interface t) h) o.
Proof. intros Hv Ho. unfold valid. now rewrite Sort_length. Qed.

(** Cells outside the slice keep their value. *)
Lemma Sort_frame (h : Heap) (t : slice) (i : nat) :
  valid h t -> (i < ptr t \/ ptr t + len t <= i)%nat ->
  sort.Sort (Targets.Interface t) h !! i = h !! i.
Proof.
  intros Hv Hi.
  destruct (Sort_split h t Hv) as (A & l & r & B & Hh & Hh' & HA & Hl & Hr & Hel & Hasc).
  subst h. rewrite Hh'. destruct Hi as [Hi|Hi].
  - now rewrite !lookup_app_l by lia.
  - rewrite !(lookup_app_r A) by lia.
    rewrite !lookup_app_r by lia. f_equal. lia.
Qed.

Lemma Sort_other (h : Heap) (t o : slice) :
  valid h t -> disjoint t o ->
  elems (sort.Sort (Targets.Interface t) h) o = elems h o.
Proof.
  intros Hv Hd. apply list_eq. intros i.
  rewrite <- !index_elems. unfold index.
  destruct (Nat.ltb_spec i (len o)); [|reflexivity].
  apply Sort_frame; [assumption|]. unfold disjoint in Hd. lia.
Qed.

(** Sorting what is sorted changes nothing. *)
Lemma Sort_sorted (h : Heap) (t : slice) :
  valid h t -> Sorted GoString.le (elems h t) ->
  sort.Sort (Targets.Interface t) h = h.
Proof.
  intros Hv Hs.
  destruct (Sort_split h t Hv) as (A & l & r & B & Hh & Hh' & HA & Hl & Hr & Hel & Hasc).
  rewrite <- Hel in Hs. subst h. rewrite Hh'. f_equal. f_equal.
  symmetry. apply (ascending_unique l); [now apply ascending_sorted|assumption].
Qed.

(** ** The comparison loops on lists *)

Lemma first_difference_refl (st : list string) : first_difference st st = None.
Proof.
  induction st as [|e st IH]; simpl; [reflexivity|].
  now rewrite String.eqb_refl.
Qed.

Lemma first_difference_None (st so : list string) :
  length st = length so -> first_difference st so = None -> st = so.
Proof.
  revert so. induction st as [|e st IH]; intros [|e' so]; simpl; try discriminate; auto.
  intros Hlen. destruct (String.eqb_spec e e') as [->|Hne]; [|discriminate].
  intros Hd. f_equal. apply IH; [lia|assumption].
Qed.

Lemma first_difference_at (st so : list string) (i : nat) (e e' : string) :
  st !! i = Some e -> so !! i = Some e' -> e <> e' -> take i st = take i so ->
  first_difference st so = Some (e, e').
Proof.
  revert so i. induction st as [|a st IH]; intros [|b so] [|i]; simpl; try discriminate.
  - intros [= ->] [= ->] Hne _.
    destruct (String.eqb_spec e e'); [contradiction|reflexivity].
  - intros Hst Hso Hne [= -> Htake]. rewrite String.eqb_refl. eauto.
Qed.

Lemma drop_lookup_cons (l os : list string) (i : nat) (oi : string) :
  drop i l = oi :: os -> l !! i = Some oi /\ drop (S i) l = os.
Proof.
  intros Hd. split.
  - pose proof (lookup_drop l i 0) as H.
    rewrite Hd, Nat.add_0_r in H. now symmetry.
  - pose proof (drop_drop l 1 i) as H.
    rewrite Hd, Nat.add_1_r in H. now symmetry.
Qed.

Section CompareFacts.
Variable hasUnicode : string -> string -> bool.
Variable parseIPv6 : string -> netip.Addr * option netip.error.

Lemma Same_range_lists (h : Heap) (o : slice) (es : list string) :
  forall (os : list string) (i : nat),
    drop i (elems h o) = os -> length es = length os ->
    Targets.Same_range hasUnicode h o es i = Some (pairwise_fold hasUnicode es os).
Proof.
  induction es as [|e es IH]; intros [|oi os] i Hd Hlen; simpl in *;
    try discriminate; [reflexivity|].
  apply drop_lookup_cons in Hd as [Hi Hd].
  rewrite index_elems, Hi.
  destruct (strings.EqualFold hasUnicode e oi); simpl; [|reflexivity].
  apply IH; [assumption|lia].
Qed.

Lemma IsLess_range_lists (h : Heap) (o : slice) (es : list string) :
  forall (os : list string) (i : nat),
    drop i (elems h o) = os -> length es = length os ->
    Targets.IsLess_range parseIPv6 h o es i
    = Some match first_difference es os with
           | Some (e, oi) => Targets.prefer parseIPv6 e oi
           | None => false
           end.
Proof.
  induction es as [|e es IH]; intros [|oi os] i Hd Hlen; simpl in *;
    try discriminate; [reflexivity|].
  apply drop_lookup_cons in Hd as [Hi Hd].
  rewrite index_elems, Hi.
  destruct (String.eqb e oi); simpl; [|reflexivity].
  apply IH; [assumption|lia].
Qed.

Lemma disjoint_sym (t o : slice) : disjoint t o -> disjoint o t.
Proof. unfold disjoint. tauto. Qed.

(** Both sorts of a comparison, on slices that share no cell. *)
Lemma Sort_both (h : Heap) (t o : slice) (st so : list string) :
  valid h t -> valid h o -> disjoint t o ->
  ascending (elems h t) st -> ascending (elems h o) so ->
  let h2 := sort.Sort (Targets.Interface o) (sort.Sort (Targets.Interface t) h) in
  elems h2 t = st /\ elems h2 o = so /\ length h2 = length h
  /\ (forall i, (i < ptr t \/ ptr t + len t <= i)%nat ->
                (i < ptr o \/ ptr o + len o <= i)%nat -> h2 !! i = h !! i).
Proof.
  intros Ht Ho Hd Hst Hso h2.
  assert (Ho1 : valid (sort.Sort (Targets.Interface t) h) o) by now apply Sort_valid.
  repeat split.
  - unfold h2. rewrite Sort_other by (auto using disjoint_sym).
    apply (ascending_unique (elems h t)); [now apply Sort_elems|assumption].
  - unfold h2. apply (ascending_unique (elems h o)); [|assumption].
    rewrite <- (Sort_other h t o Ht Hd). now apply Sort_elems.
  - unfold h2. now rewrite !Sort_length.
  - intros i Hit Hio. unfold h2. now rewrite !Sort_frame.
Qed.

(** Both sorts of a comparison of a slice with itself. *)
Lemma Sort_twice (h : Heap) (t : slice) :
  valid h t ->
  sort.Sort (Targets.Interface t) (sort.Sort (Targets.Interface t) h)
  = sort.Sort (Targets.Interface t) h.
Proof.
  intros Ht. apply Sort_sorted; [now apply Sort_valid|].
  apply (Sort_elems h t Ht).
Qed.

Lemma EqualFold_refl (s : string) :
  (forall u, hasUnicode u u = true) -> strings.EqualFold hasUnicode s s = true.
Proof.
  intros Hrefl. induction s as [|c s IH]; simpl; [reflexivity|].
  destruct (strings.RuneSelf <=? N.lor (GoString.byte c) (GoString.byte c))%N;
    [apply Hrefl|].
  now rewrite N.eqb_refl.
Qed.

Lemma pairwise_fold_refl (es : list string) :
  (forall u, hasUnicode u u = true) -> pairwise_fold hasUnicode es es = true.
Proof.
  intros Hrefl. induction es as [|e es IH]; simpl; [reflexivity|].
  now rewrite EqualFold_refl, IH.
Qed.

(** [Same] on slices that share no cell. *)
Lemma Same_disjoint (h : Heap) (t o : slice) (st so : list string) :
  valid h t -> valid h o -> disjoint t o -> len t = len o ->
  ascending (elems h t) st -> ascending (elems h o) so ->
  fst (Targets.Same hasUnicode h t o) = Some (pairwise_fold hasUnicode st so).
Proof.
  intros Ht Ho Hd Hlen Hst Hso. unfold Targets.Same.
  rewrite Hlen, Nat.eqb_refl.
  cbn -[sort.Stable elems Targets.Same_range].
  rewrite (Stable_Sort h t), (Stable_Sort _ o).
  destruct (Sort_both h t o st so Ht Ho Hd Hst Hso) as (Het & Heo & _).
  rewrite Het. apply Same_range_lists; [exact Heo|].
  rewrite (ascending_length _ _ Hst), (ascending_length _ _ Hso).
  destruct (valid_split h t Ht) as (_ & _ & ->).
  destruct (valid_split h o Ho) as (_ & _ & ->). exact Hlen.
Qed.

(** [IsLess] on slices of one length that share no cell. *)
Lemma IsLess_disjoint (h : Heap) (t o : slice) (st so : list string) :
  valid h t -> valid h o -> disjoint t o -> len t = len o ->
  ascending (elems h t) st -> ascending (elems h o) so ->
  fst (Targets.IsLess parseIPv6 h t o)
  = Some match first_difference st so with
         | Some (e, oi) => Targets.prefer parseIPv6 e oi
         | None => false
         end.
Proof.
  intros Ht Ho Hd Hlen Hst Hso. unfold Targets.IsLess.
  rewrite Hlen, Nat.ltb_irrefl.
  cbn -[sort.Sort elems Targets.IsLess_range].
  destruct (Sort_both h t o st so Ht Ho Hd Hst Hso) as (Het & Heo & _).
  rewrite Het. apply IsLess_range_lists; [exact Heo|].
  rewrite (ascending_length _ _ Hst), (ascending_length _ _ Hso).
  destruct (valid_split h t Ht) as (_ & _ & ->).
  destruct (valid_split h o Ho) as (_ & _ & ->). exact Hlen.
Qed.
Lemma EqualFold_sym (s t : string) :
  (forall u v, hasUnicode u v = hasUnicode v u) ->
  strings.EqualFold hasUnicode s t = strings.EqualFold hasUnicode t s.
Proof.
  intros Hsym. revert t.
  induction s as [|sc s IH]; intros [|tc t]; simpl; try reflexivity.
  rewrite (N.lor_comm (GoString.byte tc) (GoString.byte sc)).
  destruct (strings.RuneSelf <=? N.lor (GoString.byte sc) (GoString.byte tc))%N;
    [apply Hsym|].
  rewrite (N.eqb_sym (GoString.byte sc) (GoString.byte tc)).
  destruct (N.eqb_spec (GoString.byte tc) (GoString.byte sc)) as [Heq|Hne];
    [apply IH|].
  destruct (N.ltb_spec (GoString.byte tc) (GoString.byte sc)),
    (N.ltb_spec (GoString.byte sc) (GoString.byte tc));
    try lia; now rewrite IH.
Qed.

Lemma pairwise_fold_sym (es os : list string) :
  (forall u v, hasUnicode u v = hasUnicode v u) ->
  pairwise_fold hasUnicode es os = pairwise_fold hasUnicode os es.
Proof.
  intros Hsym. revert os.
  induction es as [|e es IH]; intros [|oi os]; simpl; try reflexivity.
  now rewrite EqualFold_sym, IH.
Qed.

(** [Same] does not depend on which of two separate lists is the receiver,
    when the fold of runes outside ASCII does not. *)
Lemma Same_symmetric (h : Heap) (t o : slice) :
  (forall u v, hasUnicode u v = hasUnicode v u) ->
  valid h t -> valid h o -> disjoint t o ->
  fst (Targets.Same hasUnicode h t o) = fst (Targets.Same hasUnicode h o t).
Proof.
  intros Hsym Ht Ho Hd.
  destruct (decide (len t = len o)) as [Hlen|Hlen].
  - rewrite (Same_disjoint h t o _ _ Ht Ho Hd Hlen (Sort_elems h t Ht) (Sort_elems h o Ho)).
    rewrite (Same_disjoint h o t _ _ Ho Ht (disjoint_sym _ _ Hd) (eq_sym Hlen)
               (Sort_elems h o Ho) (Sort_elems h t Ht)).
    now rewrite pairwise_fold_sym.
  - unfold Targets.Same.
    rewrite (proj2 (Nat.eqb_neq _ _) Hlen).
    now rewrite (proj2 (Nat.eqb_neq (len o) (len t)) (fun H => Hlen (eq_sym H))).
Qed.
End CompareFacts.

(** * Part III: the claims about [Targets] *)

Lemma Less_AddrFrom4 (f g : list Z) :
  netip.Less (netip.AddrFrom4 f) (netip.AddrFrom4 g)
  = (netip.lo (netip.AddrFrom4 f) <? netip.lo (netip.AddrFrom4 g))%Z.
Proof.
  unfold netip.Less, netip.Compare. simpl netip.BitLen. simpl netip.hi.
  simpl netip.Is6. rewrite !Z.ltb_irrefl.
  destruct (Z.ltb_spec (netip.lo (netip.AddrFrom4 f)) (netip.lo (netip.AddrFrom4 g)));
    [reflexivity|].
  now destruct (netip.lo (netip.AddrFrom4 g) <? netip.lo (netip.AddrFrom4 f))%Z.
Qed.

Section TargetsClaims.
Variable hasUnicode : string -> string -> bool.
Variable parseIPv6 : string -> netip.Addr * option netip.error.

Lemma IsLess_total (h : Heap) (t o : slice) :
  valid h t -> valid h o -> disjoint t o ->
  exists b, fst (Targets.IsLess parseIPv6 h t o) = Some b.
Proof.
  intros Ht Ho Hd.
  destruct (lt_eq_lt_dec (len t) (len o)) as [[Hlt|Heq]|Hgt].
  - exists true. unfold Targets.IsLess.
    now rewrite (proj2 (Nat.ltb_lt _ _) Hlt).
  - eexists. eapply (IsLess_disjoint parseIPv6 h t o); eauto using Sort_elems.
  - exists false. unfold Targets.IsLess.
    rewrite (proj2 (Nat.ltb_ge _ _) (Nat.lt_le_incl _ _ Hgt)).
    now rewrite (proj2 (Nat.ltb_lt _ _) Hgt).
Qed.

(** C1, as amended.  For two target lists [t] and [o] that share no cell,
    [IsLess] returns a result (it does not panic): [true] when [t] is
    shorter, [false] when [t] is longer.  When the lengths are equal, let
    [st] and [so] be the two lists in ascending order; if they are equal the
    result is [false]; otherwise, at the first index [i] where they differ:
    if both elements parse as valid IP addresses the result is
    [Addr.Less] of the two addresses (numeric order), if only [st[i]] parses
    the result is [true], if only [so[i]] parses the result is [false], and
    if neither parses it is the byte-wise string order.  In particular
    [IsLess(["1.2.3.4"], ["1-2-3-4.example.com"])] is true,
    [IsLess(["10.0.0.1"], ["2.0.0.1"])] is false and
    [IsLess(["2.0.0.1"], ["10.0.0.1"])] is true. *)
Theorem IsLess_ordering :
  (forall (h : Heap) (t o : slice),
      valid h t -> valid h o -> disjoint t o ->
      let r := fst (Targets.IsLess parseIPv6 h t o) in
      (exists b, r = Some b)
      /\ (len t < len o -> r = Some true)%nat
      /\ (len o < len t -> r = Some false)%nat
      /\ (len t = len o ->
          forall st so : list string,
            ascending (elems h t) st -> ascending (elems h o) so ->
            (st = so -> r = Some false)
            /\ (forall (i : nat) (e e' : string),
                   st !! i = Some e -> so !! i = Some e' -> e <> e' ->
                   take i st = take i so ->
                   let ipA := fst (netip.ParseAddr parseIPv6 e) in
                   let ipB := fst (netip.ParseAddr parseIPv6 e') in
                   (netip.IsValid ipA = true -> netip.IsValid ipB = true ->
                    r = Some (netip.Less ipA ipB))
                   /\ (netip.IsValid ipA = true -> netip.IsValid ipB = false ->
                       r = Some true)
                   /\ (netip.IsValid ipA = false -> netip.IsValid ipB = true ->
                       r = Some false)
                   /\ (netip.IsValid ipA = false -> netip.IsValid ipB = false ->
                       r = Some (GoString.lt e e')))))
  /\ fst (Targets.IsLess parseIPv6 ["1.2.3.4"; "1-2-3-4.example.com"]
            (mkSlice 0 1) (mkSlice 1 1)) = Some true
  /\ fst (Targets.IsLess parseIPv6 ["10.0.0.1"; "2.0.0.1"]
            (mkSlice 0 1) (mkSlice 1 1)) = Some false
  /\ fst (Targets.IsLess parseIPv6 ["2.0.0.1"; "10.0.0.1"]
            (mkSlice 0 1) (mkSlice 1 1)) = Some true.
Proof.
  split; [|repeat split; reflexivity].
  intros h t o Ht Ho Hd r. split; [now apply IsLess_total|].
  split; [|split].
  - intros Hlt. unfold r, Targets.IsLess.
    now rewrite (proj2 (Nat.ltb_lt _ _) Hlt).
  - intros Hgt. unfold r, Targets.IsLess.
    rewrite (proj2 (Nat.ltb_ge _ _) (Nat.lt_le_incl _ _ Hgt)).
    now rewrite (proj2 (Nat.ltb_lt _ _) Hgt).
  - intros Hlen st so Hst Hso.
    assert (Hr : r = Some match first_difference st so with
                          | Some (e, oi) => Targets.prefer parseIPv6 e oi
                          | None => false
                          end)
      by now apply IsLess_disjoint.
    split.
    + intros ->. now rewrite Hr, first_difference_refl.
    + intros i e e' Hi Hi' Hne Htake ipA ipB.
      rewrite Hr, (first_difference_at st so i e e') by assumption.
      unfold Targets.prefer. fold ipA ipB.
      repeat split; intros -> ->; reflexivity.
Qed.

(** C1 as stated fails at its last example: [IsLess(["10.0.0.1"],
    ["2.0.0.1"])] is false, because 10.0.0.1 is the greater number. *)
Lemma IsLess_10_0_0_1_counterexample :
  fst (Targets.IsLess Standin.parseIPv6 ["10.0.0.1"; "2.0.0.1"]
         (mkSlice 0 1) (mkSlice 1 1)) = Some false.
Proof. reflexivity. Qed.
End TargetsClaims.

Section TargetsEffects.
Variable hasUnicode : string -> string -> bool.
Variable parseIPv6 : string -> netip.Addr * option netip.error.

Lemma Same_heap (h : Heap) (t o : slice) :
  len t = len o ->
  snd (Targets.Same hasUnicode h t o)
  = sort.Sort (Targets.Interface o) (sort.Sort (Targets.Interface t) h).
Proof.
  intros Hlen. unfold Targets.Same. now rewrite Hlen, Nat.eqb_refl.
Qed.

Lemma IsLess_heap (h : Heap) (t o : slice) :
  len t = len o ->
  snd (Targets.IsLess parseIPv6 h t o)
  = sort.Sort (Targets.Interface o) (sort.Sort (Targets.Interface t) h).
Proof.
  intros Hlen. unfold Targets.IsLess. now rewrite Hlen, Nat.ltb_irrefl.
Qed.

Lemma compare_heap_unchanged (h : Heap) (t o : slice) :
  len t <> len o ->
  snd (Targets.Same hasUnicode h t o) = h
  /\ snd (Targets.IsLess parseIPv6 h t o) = h.
Proof.
  intros Hlen. unfold Targets.Same, Targets.IsLess.
  rewrite (proj2 (Nat.eqb_neq _ _) Hlen). split; [reflexivity|].
  destruct (len t <? len o)%nat eqn:Hlt; [reflexivity|].
  destruct (len o <? len t)%nat eqn:Hgt; [reflexivity|].
  apply Nat.ltb_ge in Hlt, Hgt. lia.
Qed.

Lemma Sort_perm (h : Heap) (t : slice) :
  valid h t -> sort.Sort (Targets.Interface t) h ≡ₚ h.
Proof.
  intros Hv.
  destruct (Sort_split h t Hv) as (A & l & r & B & Hh & Hh' & _ & _ & _ & _ & Hasc).
  rewrite Hh', Hh. destruct Hasc as [_ Hp]. now rewrite Hp.
Qed.

Lemma ascending_same_iff (l st : list string) :
  ascending l st -> (st = l <-> Sorted GoString.le l).
Proof.
  intros Hasc. split.
  - intros <-. apply Hasc.
  - intros Hs. apply (ascending_unique l); [assumption|now apply ascending_sorted].
Qed.

(** C4, as amended.  [Same] and [IsLess] leave the same memory behind.  They
    change no cell when the lengths of [t] and [o] differ.  When the lengths
    are equal both sort [t] and then [o] in place: the memory afterwards
    holds the strings it held, rearranged inside [t] and [o] only, and [o]
    is ascending.  If [t] and [o] share no cell, or are one and the same
    slice, each holds its former elements in ascending byte-wise order
    afterwards, so such an argument keeps its order exactly when it was
    ascending already.  Where they overlap in part the sort of [o] can
    undo the order of [t]: on the cells ["a"; "c"; "b"], with [t] the first
    two and [o] the last two, the calls leave ["a"; "b"; "c"]. *)
Theorem comparisons_sort_in_place :
  (forall (h : Heap) (t o : slice),
      valid h t -> valid h o ->
      let hS := snd (Targets.Same hasUnicode h t o) in
      let hL := snd (Targets.IsLess parseIPv6 h t o) in
      hS = hL
      /\ (len t <> len o -> hS = h)
      /\ (len t = len o ->
          hS = sort.Sort (Targets.Interface o) (sort.Sort (Targets.Interface t) h)
          /\ hS ≡ₚ h
          /\ length hS = length h
          /\ (forall i : nat,
                 (i < ptr t \/ ptr t + len t <= i)%nat ->
                 (i < ptr o \/ ptr o + len o <= i)%nat -> hS !! i = h !! i)
          /\ Sorted GoString.le (elems hS o)
          /\ (disjoint t o \/ t = o ->
              ascending (elems h t) (elems hS t)
              /\ ascending (elems h o) (elems hS o)
              /\ (elems hS t = elems h t <-> Sorted GoString.le (elems h t))
              /\ (elems hS o = elems h o <-> Sorted GoString.le (elems h o)))))
  /\ snd (Targets.Same hasUnicode ["a"; "c"; "b"] (mkSlice 0 2) (mkSlice 1 2))
     = ["a"; "b"; "c"]
  /\ snd (Targets.IsLess parseIPv6 ["a"; "c"; "b"] (mkSlice 0 2) (mkSlice 1 2))
     = ["a"; "b"; "c"].
Proof.
  split; [|split; reflexivity].
  intros h t o Ht Ho hS hL.
  destruct (decide (len t = len o)) as [Hlen|Hlen].
  - assert (HS : hS = sort.Sort (Targets.Interface o)
                        (sort.Sort (Targets.Interface t) h))
      by apply (Same_heap h t o Hlen).
    assert (HL : hL = sort.Sort (Targets.Interface o)
                        (sort.Sort (Targets.Interface t) h))
      by apply (IsLess_heap h t o Hlen).
    assert (Ho1 : valid (sort.Sort (Targets.Interface t) h) o)
      by now apply Sort_valid.
    split; [congruence|]. split; [contradiction|]. intros _.
    split; [exact HS|]. rewrite HS.
    split; [now rewrite (Sort_perm _ o Ho1), (Sort_perm h t Ht)|].
    split; [now rewrite !Sort_length|].
    split; [intros i Hit Hio; now rewrite !Sort_frame|].
    split; [apply (Sort_elems _ o Ho1)|].
    intros Hcase.
    assert (Hboth :
              ascending (elems h t)
                (elems (sort.Sort (Targets.Interface o)
                          (sort.Sort (Targets.Interface t) h)) t)
              /\ ascending (elems h o)
                   (elems (sort.Sort (Targets.Interface o)
                             (sort.Sort (Targets.Interface t) h)) o)).
    { destruct Hcase as [Hd|Heq].
      - destruct (Sort_both h t o _ _ Ht Ho Hd (Sort_elems h t Ht) (Sort_elems h o Ho))
          as (Het & Heo & _).
        rewrite Het, Heo. split; now apply Sort_elems.
      - subst o. rewrite Sort_twice by assumption. split; now apply Sort_elems. }
    destruct Hboth as [Hat Hao].
    split; [exact Hat|]. split; [exact Hao|].
    split; now apply ascending_same_iff.
  - destruct (compare_heap_unchanged h t o Hlen) as [HS HL].
    split; [unfold hS, hL; congruence|]. split; [intros _; exact HS|].
    intros Heq. contradiction.
Qed.

(** C9.  A target list compared with itself: [Same(t, t)] is true and
    [IsLess(t, t)] is false, given that the fold of runes outside ASCII
    relates every string to itself. *)
Theorem compare_with_itself (h : Heap) (t : slice) :
  (forall u : string, hasUnicode u u = true) ->
  valid h t ->
  fst (Targets.Same hasUnicode h t t) = Some true
  /\ fst (Targets.IsLess parseIPv6 h t t) = Some false.
Proof.
  intros Hrefl Ht. unfold Targets.Same, Targets.IsLess.
  rewrite Nat.eqb_refl, Nat.ltb_irrefl.
  cbn -[sort.Stable sort.Sort elems Targets.Same_range Targets.IsLess_range].
  rewrite (Stable_Sort h t), (Stable_Sort _ t), Sort_twice by assumption.
  split.
  - rewrite (Same_range_lists hasUnicode _ t (elems _ t) (elems _ t) 0 eq_refl eq_refl).
    now rewrite pairwise_fold_refl.
  - rewrite (IsLess_range_lists parseIPv6 _ t (elems _ t) (elems _ t) 0 eq_refl eq_refl).
    now rewrite first_difference_refl.
Qed.

(** The same for a second list with the same elements in other cells. *)
Lemma compare_with_copy (h : Heap) (t o : slice) :
  (forall u : string, hasUnicode u u = true) ->
  valid h t -> valid h o -> disjoint t o -> elems h t = elems h o ->
  fst (Targets.Same hasUnicode h t o) = Some true
  /\ fst (Targets.IsLess parseIPv6 h t o) = Some false.
Proof.
  intros Hrefl Ht Ho Hd Heq.
  assert (Hlen : len t = len o).
  { destruct (valid_split h t Ht) as (_ & _ & <-).
    destruct (valid_split h o Ho) as (_ & _ & <-). now rewrite Heq. }
  pose proof (Sort_elems h t Ht) as Hst.
  assert (Hso := Hst). rewrite Heq in Hso at 1.
  split.
  - rewrite (Same_disjoint hasUnicode h t o _ _ Ht Ho Hd Hlen Hst Hso).
    now rewrite pairwise_fold_refl.
  - rewrite (IsLess_disjoint parseIPv6 h t o _ _ Ht Ho Hd Hlen Hst Hso).
    now rewrite first_difference_refl.
Qed.

(** C2 at the input on which the code departs from it.  ["a"; "B"] and
    ["A"; "b"] are equal element by element up to ASCII case, yet [Same]
    returns false: each list is sorted by bytes, where "B" < "a" but
    "A" < "b", and only then compared without regard to case. *)
Theorem Same_misses_case_variants :
  strings.EqualFold hasUnicode "a" "A" = true
  /\ strings.EqualFold hasUnicode "B" "b" = true
  /\ Targets.Same hasUnicode ["a"; "B"; "A"; "b"] (mkSlice 0 2) (mkSlice 2 2)
     = (Some false, ["B"; "a"; "A"; "b"]).
Proof. repeat split; reflexivity. Qed.

(** What C2 says and the code does: lists of different lengths are not the
    same, and the two examples. *)
Lemma Same_length_mismatch (h : Heap) (t o : slice) :
  len t <> len o -> Targets.Same hasUnicode h t o = (Some false, h).
Proof.
  intros Hlen. unfold Targets.Same.
  now rewrite (proj2 (Nat.eqb_neq _ _) Hlen).
Qed.

Lemma Same_examples :
  fst (Targets.Same hasUnicode ["b"; "a"; "A"; "B"] (mkSlice 0 2) (mkSlice 2 2))
  = Some true
  /\ fst (Targets.Same hasUnicode ["a"; "a"; "a"] (mkSlice 0 1) (mkSlice 1 2))
     = Some false.
Proof. split; reflexivity. Qed.
End TargetsEffects.

(** ** The claims about [Targets] on concrete heaps *)

Lemma ascending_pair (a b : string) :
  GoString.lt b a = false -> ascending [b; a] [a; b] /\ ascending [a; b] [a; b].
Proof.
  intros Hle. split; (split; [repeat constructor; exact Hle|]).
  - apply perm_swap.
  - reflexivity.
Qed.

(** [IsLess_ordering] at [t = ["b.example"; "a.example"]] and
    [o = ["a.example"; "1.2.3.4"]]: in ascending order the lists differ at
    index 0, where only the element of [o] is an IP address. *)
Lemma IsLess_ordering_witness :
  fst (Targets.IsLess Standin.parseIPv6
         ["b.example"; "a.example"; "a.example"; "1.2.3.4"]
         (mkSlice 0 2) (mkSlice 2 2)) = Some false.
Proof.
  destruct (IsLess_ordering Standin.parseIPv6) as [Hall _].
  destruct (Hall ["b.example"; "a.example"; "a.example"; "1.2.3.4"]
              (mkSlice 0 2) (mkSlice 2 2)) as (_ & _ & _ & Heq).
  - unfold valid; simpl; lia.
  - unfold valid; simpl; lia.
  - unfold disjoint; simpl; lia.
  - destruct (Heq eq_refl ["a.example"; "b.example"] ["1.2.3.4"; "a.example"])
      as [_ Hdiff].
    + apply (ascending_pair "a.example" "b.example"). reflexivity.
    + apply (ascending_pair "1.2.3.4" "a.example"). reflexivity.
    + destruct (Hdiff 0%nat "a.example" "1.2.3.4") as (_ & _ & Hip & _).
      * reflexivity.
      * reflexivity.
      * discriminate.
      * reflexivity.
      * apply Hip; reflexivity.
Defined.

(** [comparisons_sort_in_place] at [t = ["b"; "a"]] and [o = ["d"; "c"]],
    two slices of one length that share no cell. *)
Lemma comparisons_sort_in_place_witness :
  ascending ["b"; "a"]
    (elems (snd (Targets.Same Standin.hasUnicode ["b"; "a"; "d"; "c"]
                   (mkSlice 0 2) (mkSlice 2 2))) (mkSlice 0 2))
  /\ ascending ["d"; "c"]
       (elems (snd (Targets.Same Standin.hasUnicode ["b"; "a"; "d"; "c"]
                      (mkSlice 0 2) (mkSlice 2 2))) (mkSlice 2 2)).
Proof.
  destruct (comparisons_sort_in_place Standin.hasUnicode Standin.parseIPv6)
    as [Hall _].
  destruct (Hall ["b"; "a"; "d"; "c"] (mkSlice 0 2) (mkSlice 2 2))
    as (_ & _ & Heq).
  - unfold valid; simpl; lia.
  - unfold valid; simpl; lia.
  - destruct (Heq eq_refl) as (_ & _ & _ & _ & _ & Hsep).
    destruct Hsep as (Ht & Ho & _).
    + left. unfold disjoint; simpl; lia.
    + split; assumption.
Defined.

(** C4 as stated fails: after [Same] or [IsLess] on [t = ["b"; "a"]] and
    [o = ["d"; "c"]] the caller's lists read ["a"; "b"] and ["c"; "d"]. *)
Lemma comparisons_reorder_counterexample :
  snd (Targets.Same Standin.hasUnicode ["b"; "a"; "d"; "c"]
         (mkSlice 0 2) (mkSlice 2 2)) = ["a"; "b"; "c"; "d"]
  /\ snd (Targets.IsLess Standin.parseIPv6 ["b"; "a"; "d"; "c"]
            (mkSlice 0 2) (mkSlice 2 2)) = ["a"; "b"; "c"; "d"].
Proof. split; reflexivity. Qed.

(** [compare_with_itself] at [t = ["b"; "a"]], with byte equality for the
    fold of runes outside ASCII. *)
Lemma compare_with_itself_witness :
  fst (Targets.Same Standin.hasUnicode ["b"; "a"] (mkSlice 0 2) (mkSlice 0 2))
  = Some true
  /\ fst (Targets.IsLess Standin.parseIPv6 ["b"; "a"] (mkSlice 0 2) (mkSlice 0 2))
     = Some false.
Proof.
  apply compare_with_itself.
  - intros u. apply String.eqb_refl.
  - unfold valid; simpl; lia.
Defined.

(** * Part IV: facts about [strings] and the claims about [Endpoint] *)

(** ** Substrings and suffixes *)

#[local] Arguments String.append !_ _ / : simpl nomatch.

Lemma append_nil_r (s : string) : String.append s "" = s.
Proof. induction s as [|c s IH]; simpl; congruence. Qed.

Lemma append_assoc (s u v : string) :
  String.append (String.append s u) v = String.append s (String.append u v).
Proof. induction s as [|c s IH]; simpl; congruence. Qed.

Lemma length_append (s u : string) :
  String.length (String.append s u) = (String.length s + String.length u)%nat.
Proof. induction s as [|c s IH]; simpl; congruence. Qed.

Lemma substring_all (u : string) : String.substring 0 (String.length u) u = u.
Proof. induction u as [|c u IH]; simpl; congruence. Qed.

Lemma substring_prefix (s u : string) :
  String.substring 0 (String.length s) (String.append s u) = s.
Proof.
  induction s as [|c s IH]; simpl; [now destruct u|congruence].
Qed.

Lemma substring_skip (s u : string) (m : nat) :
  String.substring (String.length s) m (String.append s u) = String.substring 0 m u.
Proof. induction s as [|c s IH]; simpl; auto. Qed.

Lemma substring_split (s : string) :
  forall n : nat, (n <= String.length s)%nat ->
    String.append (String.substring 0 n s) (String.substring n (String.length s - n) s) = s.
Proof.
  induction s as [|c s IH]; intros [|n] Hn; simpl in *; try lia; auto.
  - f_equal. apply substring_all.
  - f_equal. apply IH. lia.
Qed.

(** [HasSuffix s suffix] holds exactly when [s] ends in [suffix]. *)
Lemma HasSuffix_iff (s suffix : string) :
  strings.HasSuffix s suffix = true <-> exists s', s = String.append s' suffix.
Proof.
  unfold strings.HasSuffix, GoString.slice_from. split.
  - intros H. apply andb_true_iff in H as [Hlen Heq].
    apply Nat.leb_le in Hlen. apply String.eqb_eq in Heq.
    exists (String.substring 0 (String.length s - String.length suffix) s).
    rewrite <- Heq at 2.
    symmetry. apply substring_split. lia.
  - intros [s' ->]. rewrite length_append. apply andb_true_iff. split.
    + apply Nat.leb_le. lia.
    + apply String.eqb_eq.
      replace (String.length s' + String.length suffix - String.length suffix)%nat
        with (String.length s') by lia.
      replace (String.length s' + String.length suffix - String.length s')%nat
        with (String.length suffix) by lia.
      rewrite substring_skip. apply substring_all.
Qed.

(** [TrimSuffix] removes the suffix once ... *)
Lemma TrimSuffix_suffix (s suffix : string) :
  strings.TrimSuffix (String.append s suffix) suffix = s.
Proof.
  unfold strings.TrimSuffix.
  rewrite (proj2 (HasSuffix_iff _ _)) by eauto.
  unfold GoString.slice_to. rewrite length_append.
  replace (String.length s + String.length suffix - String.length suffix)%nat
    with (String.length s) by lia.
  apply substring_prefix.
Qed.

(** ... and leaves a string that does not end in it as it is. *)
Lemma TrimSuffix_other (s suffix : string) :
  (forall s', s <> String.append s' suffix) -> strings.TrimSuffix s suffix = s.
Proof.
  intros Hno. unfold strings.TrimSuffix.
  destruct (strings.HasSuffix s suffix) eqn:Hs; [|reflexivity].
  apply HasSuffix_iff in Hs as [s' ->]. now destruct (Hno s').
Qed.

(** ** Splitting at a separator *)

Lemma has_byte_append (c : ascii) (s u : string) :
  has_byte c (String.append s u) = has_byte c s || has_byte c u.
Proof.
  induction s as [|c' s IH]; simpl; [reflexivity|].
  now rewrite IH, orb_assoc.
Qed.

Lemma Split_from_cons (label s : string) (sep : ascii) :
  exists x xs, strings.Split_from label s sep = x :: xs.
Proof.
  revert label. induction s as [|c s IH]; intros label; simpl; eauto.
  destruct (Ascii.eqb c sep); eauto.
Qed.

(** Joining the pieces with the separator gives the string back. *)
Lemma concat_Split_from (label s : string) (sep : ascii) :
  String.concat (String sep "") (strings.Split_from label s sep)
  = String.append label s.
Proof.
  revert label. induction s as [|c s IH]; intros label; simpl.
  - now rewrite append_nil_r.
  - destruct (Ascii.eqb_spec c sep) as [->|Hne].
    + destruct (Split_from_cons "" s sep) as (x & xs & Hx).
      pose proof (IH "") as IH'. rewrite Hx in *. simpl in *.
      now rewrite IH'.
    + rewrite IH, append_assoc. reflexivity.
Qed.

(** No piece holds the separator. *)
Lemma Split_from_free (label s : string) (sep : ascii) :
  has_byte sep label = false ->
  Forall (fun x => has_byte sep x = false) (strings.Split_from label s sep).
Proof.
  revert label. induction s as [|c s IH]; intros label Hl; simpl.
  - now constructor.
  - destruct (Ascii.eqb c sep) eqn:Hc.
    + constructor; [assumption|]. now apply IH.
    + apply IH. rewrite has_byte_append, Hl. simpl. now rewrite Hc.
Qed.

Lemma Split_from_prefix (x : string) :
  forall (label rest : string) (sep : ascii),
    has_byte sep x = false ->
    strings.Split_from label (String.append x rest) sep
    = strings.Split_from (String.append label x) rest sep.
Proof.
  induction x as [|c x IH]; intros label rest sep Hx; simpl in *.
  - now rewrite append_nil_r.
  - apply orb_false_iff in Hx as [Hc Hx]. rewrite Hc.
    rewrite IH by assumption. now rewrite append_assoc.
Qed.

(** [Split] finds the one way to cut a string into pieces without the
    separator. *)
Lemma Split_concat (sep : ascii) (labels : list string) :
  labels <> [] ->
  Forall (fun x => has_byte sep x = false) labels ->
  strings.Split (String.concat (String sep "") labels) sep = labels.
Proof.
  unfold strings.Split.
  induction labels as [|x [|y ys] IH]; intros Hne Hfree; [congruence| |].
  - simpl. apply Forall_cons_1 in Hfree as [Hx _].
    rewrite <- (append_nil_r x) at 1.
    rewrite Split_from_prefix by assumption. reflexivity.
  - apply Forall_cons_1 in Hfree as [Hx Hfree].
    change (String.concat (String sep "") (x :: y :: ys))
      with (String.append x (String sep (String.concat (String sep "") (y :: ys)))).
    rewrite Split_from_prefix by assumption. simpl String.append.
    cbn [strings.Split_from]. rewrite Ascii.eqb_refl.
    f_equal. apply IH; [discriminate|assumption].
Qed.

(** ** The provider-specific overlay *)

Lemma find_Name_None (ps : list Property) (key : string) :
  Endpoint.find_Name ps key = None <-> key ∉ Name <$> ps.
Proof.
  induction ps as [|p ps IH]; simpl.
  - split; [intros _; apply not_elem_of_nil|reflexivity].
  - rewrite not_elem_of_cons.
    destruct (String.eqb_spec (Name p) key) as [Heq|Hne].
    + split; [discriminate|]. intros [Hk _]. now destruct Hk.
    + destruct (Endpoint.find_Name ps key); simpl.
      * split; [discriminate|]. intros [_ Hk]. now apply IH in Hk.
      * split; [|reflexivity]. intros _. split; [congruence|now apply IH].
Qed.

(** [find_Name] returns the first index that holds the name. *)
Lemma find_Name_Some (ps : list Property) (key : string) (i : nat) :
  Endpoint.find_Name ps key = Some i <->
  (exists p, ps !! i = Some p /\ Name p = key)
  /\ key ∉ Name <$> take i ps.
Proof.
  revert i. induction ps as [|p ps IH]; intros i; simpl.
  - split; [discriminate|]. intros [[q [Hq _]] _]. discriminate.
  - destruct (String.eqb_spec (Name p) key) as [Heq|Hne].
    + split.
      * intros [= <-]. split; [eauto|apply not_elem_of_nil].
      * intros [_ Hno]. destruct i as [|i]; [reflexivity|].
        simpl in Hno. apply not_elem_of_cons in Hno as [Hk _]. now destruct Hk.
    + destruct i as [|i].
      * split.
        -- destruct (Endpoint.find_Name ps key); discriminate.
        -- intros [[q [[= <-] Hq]] _]. contradiction.
      * simpl. rewrite not_elem_of_cons. specialize (IH i).
        destruct (Endpoint.find_Name ps key) as [j|]; simpl; split.
        -- intros [= ->]. destruct (proj1 IH eq_refl) as [Hex Hno].
           repeat split; auto.
        -- intros (Hex & _ & Hno).
           assert (Hj : Some j = Some i) by now apply IH.
           congruence.
        -- discriminate.
        -- intros (Hex & _ & Hno).
           assert (Hj : @None nat = Some i) by now apply IH.
           discriminate.
Qed.

(** With unique names, the index of a name is the one [find_Name] returns. *)
Lemma find_Name_unique (ps : list Property) (key : string) (i : nat) (p : Property) :
  NoDup (Name <$> ps) -> ps !! i = Some p -> Name p = key ->
  Endpoint.find_Name ps key = Some i.
Proof.
  intros Hnd Hi Hp. apply find_Name_Some. split; [eauto|].
  intros Hin. apply list_elem_of_lookup in Hin as [j Hj].
  assert (Hji : (j < i)%nat).
  { pose proof (lookup_lt_Some _ _ _ Hj) as Hlt.
    rewrite length_fmap, length_take in Hlt. lia. }
  rewrite fmap_take, lookup_take_lt in Hj by assumption.
  assert (Hi' : (Name <$> ps) !! i = Some key) by now rewrite list_lookup_fmap, Hi; simpl; f_equal.
  pose proof (NoDup_lookup _ _ _ _ Hnd Hj Hi'). lia.
Qed.

Lemma names_Set (e : Endpoint.t) (key value : string) :
  names (Endpoint.SetProviderSpecificProperty e key value)
  = if decide (key ∈ names e) then names e else names e ++ [key].
Proof.
  unfold names, Endpoint.SetProviderSpecificProperty.
  destruct (Endpoint.find_Name (Endpoint.ProviderSpecific e) key) as [i|] eqn:Hf.
  - rewrite decide_True.
    + apply find_Name_Some in Hf as [(p & Hi & Hp) _]. simpl.
      rewrite list_fmap_insert. simpl. apply list_insert_id.
      now rewrite list_lookup_fmap, Hi; simpl; f_equal.
    + destruct (decide (key ∈ Name <$> Endpoint.ProviderSpecific e)) as [|Hno];
        [assumption|].
      apply find_Name_None in Hno. congruence.
  - apply find_Name_None in Hf. rewrite decide_False by assumption.
    simpl. now rewrite fmap_app.
Qed.

Lemma filter_absent (ps : list Property) (key : string) :
  key ∉ Name <$> ps -> filter (fun p => Name p <> key) ps = ps.
Proof.
  induction ps as [|p ps IH]; simpl; [reflexivity|].
  intros Hno. apply not_elem_of_cons in Hno as [Hk Hno].
  rewrite filter_cons_True by congruence. f_equal. now apply IH.
Qed.

(** With unique names, deleting the first match deletes every match. *)
Lemma Delete_filter (ps : list Property) (key : string) :
  NoDup (Name <$> ps) ->
  match Endpoint.find_Name ps key with
  | Some i => take i ps ++ drop (S i) ps
  | None => ps
  end = filter (fun p => Name p <> key) ps.
Proof.
  induction ps as [|p ps IH]; intros Hnd; simpl; [reflexivity|].
  apply NoDup_cons in Hnd as [Hp Hnd]. specialize (IH Hnd).
  destruct (String.eqb_spec (Name p) key) as [Heq|Hne].
  - simpl. rewrite filter_cons_False by (intros Hk; now apply Hk).
    rewrite <- Heq. symmetry. now apply filter_absent.
  - rewrite filter_cons_True by assumption.
    revert IH. destruct (Endpoint.find_Name ps key); simpl; congruence.
Qed.

Lemma names_Delete (e : Endpoint.t) (key : string) :
  NoDup (names e) ->
  Endpoint.ProviderSpecific (Endpoint.DeleteProviderSpecificProperty e key)
  = filter (fun p => Name p <> key) (Endpoint.ProviderSpecific e).
Proof.
  intros Hnd. rewrite <- (Delete_filter _ key Hnd).
  unfold Endpoint.DeleteProviderSpecificProperty.
  now destruct (Endpoint.find_Name (Endpoint.ProviderSpecific e) key).
Qed.

Lemma NoDup_filter_names (ps : list Property) (key : string) :
  NoDup (Name <$> ps) ->
  NoDup (Name <$> filter (fun p => Name p <> key) ps)
  /\ key ∉ Name <$> filter (fun p => Name p <> key) ps.
Proof.
  intros Hnd. split.
  - eapply sublist_NoDup; [exact Hnd|].
    apply fmap_sublist, sublist_filter.
  - intros Hin. apply list_elem_of_fmap in Hin as (p & Hp & Hin).
    apply list_elem_of_filter in Hin as [Hne _]. congruence.
Qed.

(** Both calls keep the names unique. *)
Lemma call_NoDup (e : Endpoint.t) (c : overlay_call) :
  NoDup (names e) -> NoDup (names (call e c)).
Proof.
  intros Hnd. destruct c as [key value|key]; simpl.
  - rewrite names_Set. destruct (decide (key ∈ names e)); [assumption|].
    apply NoDup_app. repeat split; [assumption| |apply NoDup_singleton].
    intros x Hx Hk. apply list_elem_of_singleton in Hk. congruence.
  - unfold names. rewrite names_Delete by assumption.
    now apply NoDup_filter_names.
Qed.

Lemma calls_NoDup (cs : list overlay_call) :
  forall e : Endpoint.t, NoDup (names e) -> NoDup (names (calls e cs)).
Proof.
  induction cs as [|c cs IH]; intros e Hnd; simpl; [assumption|].
  apply IH. now apply call_NoDup.
Qed.

Lemma Get_range_absent (ps : list Property) (key : string) :
  key ∉ Name <$> ps -> Endpoint.Get_range ps key = ("", false).
Proof.
  induction ps as [|p ps IH]; simpl; [reflexivity|].
  intros Hno. apply not_elem_of_cons in Hno as [Hk Hno].
  destruct (String.eqb_spec (Name p) key); [congruence|now apply IH].
Qed.

Lemma Get_range_Set (ps : list Property) (key value : string) :
  Endpoint.Get_range
    match Endpoint.find_Name ps key with
    | Some i => <[i := ProviderSpecificProperty.mk key value]> ps
    | None => ps ++ [ProviderSpecificProperty.mk key value]
    end key = (value, true).
Proof.
  induction ps as [|p ps IH]; simpl.
  - now rewrite String.eqb_refl.
  - destruct (String.eqb_spec (Name p) key) as [Heq|Hne]; simpl.
    + now rewrite String.eqb_refl.
    + destruct (Endpoint.find_Name ps key); simpl;
        (destruct (String.eqb_spec (Name p) key); [contradiction|exact IH]).
Qed.

Lemma Set_existing (e : Endpoint.t) (key value : string) (i : nat) (p : Property) :
  NoDup (names e) -> Endpoint.ProviderSpecific e !! i = Some p -> Name p = key ->
  Endpoint.ProviderSpecific (Endpoint.SetProviderSpecificProperty e key value)
  = <[i := ProviderSpecificProperty.mk key value]> (Endpoint.ProviderSpecific e).
Proof.
  intros Hnd Hi Hp. unfold Endpoint.SetProviderSpecificProperty.
  now rewrite (find_Name_unique _ key i p Hnd Hi Hp).
Qed.

Lemma Set_new (e : Endpoint.t) (key value : string) :
  key ∉ names e ->
  Endpoint.ProviderSpecific (Endpoint.SetProviderSpecificProperty e key value)
  = Endpoint.ProviderSpecific e ++ [ProviderSpecificProperty.mk key value].
Proof.
  intros Hno. unfold Endpoint.SetProviderSpecificProperty.
  now rewrite (proj2 (find_Name_None _ key) Hno).
Qed.

Lemma Delete_absent (e : Endpoint.t) (key : string) :
  key ∉ names e -> Endpoint.DeleteProviderSpecificProperty e key = e.
Proof.
  intros Hno. unfold Endpoint.DeleteProviderSpecificProperty.
  now rewrite (proj2 (find_Name_None _ key) Hno).
Qed.

(** After [Set(key, value)] the overlay holds the pair at some index. *)
Lemma Set_holds (e : Endpoint.t) (key value : string) :
  exists i : nat,
    Endpoint.ProviderSpecific (Endpoint.SetProviderSpecificProperty e key value) !! i
    = Some (ProviderSpecificProperty.mk key value).
Proof.
  unfold Endpoint.SetProviderSpecificProperty.
  destruct (Endpoint.find_Name (Endpoint.ProviderSpecific e) key) as [i|] eqn:Hf.
  - exists i. simpl. apply find_Name_Some in Hf as [(p & Hi & _) _].
    apply list_lookup_insert_eq. now apply lookup_lt_Some in Hi.
  - exists (length (Endpoint.ProviderSpecific e)). simpl.
    now apply list_lookup_middle.
Qed.

(** C7.  Starting from an empty overlay, after any sequence of [Set] and
    [Delete] calls each name occurs at most once.  On an overlay with
    unique names: [Set] on a name held at index [i] replaces the entry at
    [i] and nothing else; [Set] on a new name appends the entry; [Delete]
    leaves exactly the entries with another name, in their order, and
    changes nothing when the name is absent.  [Set("k", "v1")] then
    [Set("k", "v2")] leaves the entry ("k", "v2") at the index where the
    first call put ("k", "v1"), and on an empty overlay this is the only
    entry. *)
Theorem overlay_unique_and_stable :
  (forall (e : Endpoint.t) (cs : list overlay_call),
      Endpoint.ProviderSpecific e = [] -> NoDup (names (calls e cs)))
  /\ (forall (e : Endpoint.t) (key value : string) (i : nat) (p : Property),
         NoDup (names e) ->
         Endpoint.ProviderSpecific e !! i = Some p -> Name p = key ->
         Endpoint.ProviderSpecific (Endpoint.SetProviderSpecificProperty e key value)
         = <[i := ProviderSpecificProperty.mk key value]> (Endpoint.ProviderSpecific e))
  /\ (forall (e : Endpoint.t) (key value : string),
         key ∉ names e ->
         Endpoint.ProviderSpecific (Endpoint.SetProviderSpecificProperty e key value)
         = Endpoint.ProviderSpecific e ++ [ProviderSpecificProperty.mk key value])
  /\ (forall (e : Endpoint.t) (key : string),
         NoDup (names e) ->
         Endpoint.ProviderSpecific (Endpoint.DeleteProviderSpecificProperty e key)
         = filter (fun p => Name p <> key) (Endpoint.ProviderSpecific e))
  /\ (forall (e : Endpoint.t) (key : string),
         key ∉ names e -> Endpoint.DeleteProviderSpecificProperty e key = e)
  /\ (forall (e : Endpoint.t) (key v1 v2 : string),
         NoDup (names e) ->
         let e1 := Endpoint.SetProviderSpecificProperty e key v1 in
         let e2 := Endpoint.SetProviderSpecificProperty e1 key v2 in
         exists i : nat,
           Endpoint.ProviderSpecific e1 !! i = Some (ProviderSpecificProperty.mk key v1)
           /\ Endpoint.ProviderSpecific e2
              = <[i := ProviderSpecificProperty.mk key v2]> (Endpoint.ProviderSpecific e1)
           /\ NoDup (names e2))
  /\ (forall e : Endpoint.t,
         Endpoint.ProviderSpecific e = [] ->
         Endpoint.ProviderSpecific
           (Endpoint.SetProviderSpecificProperty
              (Endpoint.SetProviderSpecificProperty e "k" "v1") "k" "v2")
         = [ProviderSpecificProperty.mk "k" "v2"]).
Proof.
  split; [|split; [|split; [|split; [|split; [|split]]]]].
  - intros e cs He. apply calls_NoDup. unfold names. rewrite He. constructor.
  - apply Set_existing.
  - apply Set_new.
  - apply names_Delete.
  - apply Delete_absent.
  - intros e key v1 v2 Hnd e1 e2.
    assert (Hnd1 : NoDup (names e1)) by apply (call_NoDup e (CallSet key v1) Hnd).
    destruct (Set_holds e key v1) as [i Hi]. exists i. repeat split.
    + exact Hi.
    + now apply (Set_existing e1 key v2 i _ Hnd1 Hi).
    + apply (call_NoDup e1 (CallSet key v2) Hnd1).
  - intros e He. unfold Endpoint.SetProviderSpecificProperty at 2.
    rewrite He. simpl. reflexivity.
Qed.

(** C10.  Right after [Set(k, v)], [Get(k)] returns [(v, true)]; on an
    overlay with unique names, right after [Delete(k)], [Get(k)] returns
    [("", false)]. *)
Theorem overlay_round_trips :
  (forall (e : Endpoint.t) (k v : string),
      Endpoint.GetProviderSpecificProperty
        (Endpoint.SetProviderSpecificProperty e k v) k = (v, true))
  /\ (forall (e : Endpoint.t) (k : string),
         NoDup (names e) ->
         Endpoint.GetProviderSpecificProperty
           (Endpoint.DeleteProviderSpecificProperty e k) k = ("", false)).
Proof.
  split.
  - intros e k v.
    unfold Endpoint.GetProviderSpecificProperty, Endpoint.SetProviderSpecificProperty.
    rewrite <- (Get_range_Set (Endpoint.ProviderSpecific e) k v).
    now destruct (Endpoint.find_Name (Endpoint.ProviderSpecific e) k).
  - intros e k Hnd. unfold Endpoint.GetProviderSpecificProperty.
    rewrite names_Delete by assumption.
    apply Get_range_absent. now apply NoDup_filter_names.
Qed.

(** C8.  [Key] is the triple of [DNSName], [RecordType] and
    [SetIdentifier]: two endpoints have equal keys exactly when they agree
    on these three fields, whatever their targets, TTL, labels and overlay;
    and the key [FilterEndpointsByOwnerID] builds is [Key]. *)
Theorem Key_is_identity_triple :
  (forall e : Endpoint.t,
      Endpoint.Key e
      = EndpointKey.mk (Endpoint.DNSName e) (Endpoint.RecordType e)
          (Endpoint.SetIdentifier e))
  /\ (forall e1 e2 : Endpoint.t,
         Endpoint.Key e1 = Endpoint.Key e2 <->
         Endpoint.DNSName e1 = Endpoint.DNSName e2
         /\ Endpoint.RecordType e1 = Endpoint.RecordType e2
         /\ Endpoint.SetIdentifier e1 = Endpoint.SetIdentifier e2)
  /\ (forall (dnsName recordType setIdentifier : string)
             (targets1 targets2 : list string) (ttl1 ttl2 : TTL)
             (labels1 labels2 : gmap string string)
             (overlay1 overlay2 : list Property),
         Endpoint.Key (Endpoint.mk dnsName targets1 recordType setIdentifier
                         ttl1 labels1 overlay1)
         = Endpoint.Key (Endpoint.mk dnsName targets2 recordType setIdentifier
                           ttl2 labels2 overlay2))
  /\ (forall e : Endpoint.t, Endpoint.filter_key e = Endpoint.Key e).
Proof.
  split; [reflexivity|]. split; [|split; reflexivity].
  intros e1 e2. unfold Endpoint.Key. split.
  - intros [= H1 H2 H3]. auto.
  - intros (-> & -> & ->). reflexivity.
Qed.

(** ** Construction and the filter by owner *)

Lemma dns_label_Split (name label : string) :
  dns_label name label <-> label ∈ strings.Split name ".".
Proof.
  split.
  - intros (labels & Hne & Hfree & <- & Hin).
    now rewrite Split_concat.
  - intros Hin. exists (strings.Split name "."). repeat split.
    + unfold strings.Split.
      destruct (Split_from_cons "" name ".") as (x & xs & ->). discriminate.
    + now apply Split_from_free.
    + apply (concat_Split_from "" name ".").
    + assumption.
Qed.

Lemma label_too_long_iff (labels : list string) :
  Endpoint.label_too_long labels = true
  <-> exists label, label ∈ labels /\ (63 < String.length label)%nat.
Proof.
  induction labels as [|x xs IH]; simpl.
  - split; [discriminate|]. intros (l & Hl & _). now apply elem_of_nil in Hl.
  - destruct (Nat.ltb_spec 63 (String.length x)) as [Hlong|Hshort].
    + split; [|reflexivity]. intros _. exists x. split; [left|assumption].
    + rewrite IH. split.
      * intros (l & Hl & Hlen). exists l. split; [now right|assumption].
      * intros (l & Hl & Hlen). apply elem_of_cons in Hl as [->|Hl]; [lia|eauto].
Qed.

Section EndpointClaims.
Variable OwnerLabelKey : string.
Variable NewLabels : gmap string string.

Lemma kept_from_cons (ownerID : string) (all : list Endpoint.t) (start : nat)
    (ep : Endpoint.t) (eps : list Endpoint.t) :
  kept_from OwnerLabelKey ownerID all start (ep :: eps)
  = (if decide (first_and_owned OwnerLabelKey ownerID all (start, ep)) then [ep] else [])
    ++ kept_from OwnerLabelKey ownerID all (S start) eps.
Proof.
  unfold kept_from. rewrite imap_cons, filter_cons, Nat.add_0_r.
  assert (Hext : imap ((fun i ep0 => ((start + i)%nat, ep0)) ∘ S) eps
                 = imap (fun i ep0 => ((S start + i)%nat, ep0)) eps).
  { apply imap_ext. intros i x _. simpl. f_equal. lia. }
  rewrite Hext. now destruct (decide _).
Qed.

Lemma Filter_range_kept (ownerID : string) (eps : list Endpoint.t) :
  forall (before filtered : list Endpoint.t) (visited : gmap EndpointKey.t bool),
    (forall k, default false (visited !! k) = true <-> k ∈ (Endpoint.Key <$> before)) ->
    Endpoint.Filter_range OwnerLabelKey ownerID eps filtered visited
    = filtered ++ kept_from OwnerLabelKey ownerID (before ++ eps) (length before) eps.
Proof.
  induction eps as [|ep eps IH]; intros before filtered visited Hvis; simpl.
  - unfold kept_from. simpl. now rewrite app_nil_r.
  - rewrite kept_from_cons.
    assert (Hall : before ++ ep :: eps = (before ++ [ep]) ++ eps)
      by now rewrite <- app_assoc.
    assert (Hlen : S (length before) = length (before ++ [ep]))
      by (rewrite length_app; simpl; lia).
    assert (Hfirst : first_and_owned OwnerLabelKey ownerID (before ++ ep :: eps)
                       (length before, ep)
                     <-> (Endpoint.Key ep ∉ (Endpoint.Key <$> before))
                         /\ Endpoint.Labels ep !! OwnerLabelKey = Some ownerID).
    { unfold first_and_owned. simpl. now rewrite take_app_length. }
    rewrite Hall, Hlen.
    destruct (default false (visited !! Endpoint.filter_key ep)) eqn:Hseen.
    + apply Hvis in Hseen.
      rewrite decide_False; [|rewrite <- Hall, Hfirst; tauto].
      apply IH. intros k. rewrite Hvis, fmap_app, elem_of_app. simpl.
      rewrite list_elem_of_singleton. split; [tauto|].
      intros [Hk| ->]; assumption.
    + assert (Hnew : Endpoint.Key ep ∉ (Endpoint.Key <$> before)).
      { intros Hin. apply Hvis in Hin.
        change (Endpoint.filter_key ep) with (Endpoint.Key ep) in Hseen. congruence. }
      assert (Hvis' : forall k,
                 default false (<[Endpoint.filter_key ep := true]> visited !! k) = true
                 <-> k ∈ (Endpoint.Key <$> before ++ [ep])).
      { intros k. rewrite fmap_app, elem_of_app. simpl.
        rewrite list_elem_of_singleton, <- Hvis.
        change (Endpoint.filter_key ep) with (Endpoint.Key ep).
        destruct (decide (Endpoint.Key ep = k)) as [<-|Hk].
        - rewrite lookup_insert_eq. simpl. tauto.
        - rewrite lookup_insert_ne by assumption. split; [tauto|].
          intros [H|H]; [assumption|congruence]. }
      rewrite (IH _ _ _ Hvis').
      destruct (Endpoint.Labels ep !! OwnerLabelKey) as [endpointOwner|] eqn:Hown.
      * destruct (String.eqb_spec endpointOwner ownerID) as [->|Hne]; simpl.
        -- rewrite decide_True; [|rewrite <- Hall, Hfirst; tauto].
           now rewrite <- app_assoc.
        -- rewrite decide_False; [reflexivity|].
           rewrite <- Hall, Hfirst. intros [_ [= Heq]]. contradiction.
      * rewrite decide_False; [reflexivity|].
        rewrite <- Hall, Hfirst. intros [_ [=]].
Qed.

Lemma snd_imap_pair (g : nat -> nat) (eps : list Endpoint.t) :
  (imap (fun i ep => (g i, ep)) eps).*2 = eps.
Proof.
  revert g. induction eps as [|ep eps IH]; intros g; [reflexivity|].
  rewrite imap_cons. simpl. f_equal. apply (IH (g ∘ S)).
Qed.

Lemma IsOwnedBy_iff (ep : Endpoint.t) (ownerID : string) :
  Endpoint.IsOwnedBy OwnerLabelKey ep ownerID = true
  <-> Endpoint.Labels ep !! OwnerLabelKey = Some ownerID.
Proof.
  unfold Endpoint.IsOwnedBy.
  destruct (Endpoint.Labels ep !! OwnerLabelKey) as [endpointOwner|].
  - rewrite String.eqb_eq. split; congruence.
  - split; discriminate.
Qed.

Lemma elem_of_kept (ownerID : string) (eps : list Endpoint.t) (ep : Endpoint.t) :
  ep ∈ kept OwnerLabelKey ownerID eps
  <-> exists i : nat,
        eps !! i = Some ep
        /\ (Endpoint.Key ep ∉ (Endpoint.Key <$> take i eps))
        /\ Endpoint.Labels ep !! OwnerLabelKey = Some ownerID.
Proof.
  unfold kept, kept_from. rewrite list_elem_of_fmap. split.
  - intros ([i ep'] & -> & Hin). apply list_elem_of_filter in Hin as [[Hfirst Hown] Hin].
    apply elem_of_lookup_imap in Hin as (j & x & [= -> ->] & Hj).
    exists j. auto.
  - intros (i & Hi & Hfirst & Hown). exists (i, ep). split; [reflexivity|].
    apply list_elem_of_filter. split; [now split|].
    apply (elem_of_lookup_imap_2 (fun i ep => ((0 + i)%nat, ep)) eps ep i Hi).
Qed.

(** C3.  [FilterEndpointsByOwnerID] returns, in the order of the input,
    exactly the endpoints that are the first of the input with their key
    and whose labels hold [ownerID] under the ownership key: the endpoint
    at index [i] is returned when no endpoint before [i] has its key and it
    is owned by [ownerID].  An endpoint whose key stands earlier in the
    input is dropped whatever its labels, an endpoint without the label or
    with another value is dropped, and the function returns a list on every
    input. *)
Theorem FilterEndpointsByOwnerID_kept (ownerID : string) (eps : list Endpoint.t) :
  Endpoint.FilterEndpointsByOwnerID OwnerLabelKey ownerID eps
  = (filter (first_and_owned OwnerLabelKey ownerID eps)
       (imap (fun i ep => ((0 + i)%nat, ep)) eps)).*2
  /\ Endpoint.FilterEndpointsByOwnerID OwnerLabelKey ownerID eps `sublist_of` eps
  /\ (forall ep : Endpoint.t,
         ep ∈ Endpoint.FilterEndpointsByOwnerID OwnerLabelKey ownerID eps
         <-> exists i : nat,
               eps !! i = Some ep
               /\ (Endpoint.Key ep ∉ (Endpoint.Key <$> take i eps))
               /\ Endpoint.IsOwnedBy OwnerLabelKey ep ownerID = true).
Proof.
  assert (Heq : Endpoint.FilterEndpointsByOwnerID OwnerLabelKey ownerID eps
                = kept OwnerLabelKey ownerID eps).
  { unfold Endpoint.FilterEndpointsByOwnerID.
    rewrite (Filter_range_kept ownerID eps [] [] ∅); [reflexivity|].
    intros k. rewrite lookup_empty. simpl. split; [discriminate|].
    intros Hin. now apply elem_of_nil in Hin. }
  split; [exact Heq|]. split.
  - rewrite Heq. unfold kept, kept_from.
    pose proof (fmap_sublist snd _ _
                  (sublist_filter (first_and_owned OwnerLabelKey ownerID eps)
                     (imap (fun i ep => ((0 + i)%nat, ep)) eps))) as Hsub.
    now rewrite (snd_imap_pair (fun i => (0 + i)%nat) eps) in Hsub.
  - intros ep. rewrite Heq, elem_of_kept.
    split; intros (i & Hi & Hfirst & Hown); exists i; repeat split; auto;
      now apply IsOwnedBy_iff.
Qed.
End EndpointClaims.

Section Construction.
Variable NewLabels : gmap string string.

(** C5.  [NewEndpointWithTTL] returns nil exactly when some dot-separated
    label of [dnsName] is longer than 63 bytes.  When every label has at
    most 63 bytes it returns an endpoint with every field set: the
    normalized name and targets, the record type and TTL given, the labels
    of [NewLabels], no set identifier and an empty overlay.  [NewEndpoint]
    is [NewEndpointWithTTL] with TTL 0. *)
Theorem NewEndpointWithTTL_label_guard
    (dnsName recordType : string) (ttl : TTL) (targets : list string) :
  (Endpoint.NewEndpointWithTTL NewLabels dnsName recordType ttl targets = None
   <-> exists label : string,
         dns_label dnsName label /\ (63 < String.length label)%nat)
  /\ ((forall label : string,
          dns_label dnsName label -> (String.length label <= 63)%nat) ->
      Endpoint.NewEndpointWithTTL NewLabels dnsName recordType ttl targets
      = Some (Endpoint.mk (strings.TrimSuffix dnsName ".")
                (map (fun target => strings.TrimSuffix target ".") targets)
                recordType "" ttl NewLabels []))
  /\ Endpoint.NewEndpoint NewLabels dnsName recordType targets
     = Endpoint.NewEndpointWithTTL NewLabels dnsName recordType 0%Z targets.
Proof.
  unfold Endpoint.NewEndpoint, Endpoint.NewEndpointWithTTL.
  split; [|split; [|reflexivity]].
  - destruct (Endpoint.label_too_long (strings.Split dnsName ".")) eqn:Hlong.
    + split; [|reflexivity]. intros _.
      apply label_too_long_iff in Hlong as (label & Hin & Hlen).
      exists label. split; [now apply dns_label_Split|assumption].
    + split; [discriminate|]. intros (label & Hl & Hlen).
      assert (Htrue : Endpoint.label_too_long (strings.Split dnsName ".") = true).
      { apply label_too_long_iff. exists label.
        split; [now apply dns_label_Split|assumption]. }
      congruence.
  - intros Hshort.
    destruct (Endpoint.label_too_long (strings.Split dnsName ".")) eqn:Hlong;
      [|reflexivity].
    apply label_too_long_iff in Hlong as (label & Hin & Hlen).
    apply dns_label_Split in Hin. apply Hshort in Hin. lia.
Qed.

(** C6.  An endpoint that [NewEndpointWithTTL] returns holds [dnsName]
    without its last byte when [dnsName] ends in ".", and [dnsName] itself
    otherwise; it holds as many targets as were given, in their order, each
    without its last byte when it ends in "." and unchanged otherwise.  Only
    one "." is removed: what stands before it is kept as it is. *)
Theorem NewEndpointWithTTL_normalizes
    (dnsName recordType : string) (ttl : TTL) (targets : list string)
    (e : Endpoint.t) :
  Endpoint.NewEndpointWithTTL NewLabels dnsName recordType ttl targets = Some e ->
  (forall s : string, dnsName = String.append s "." -> Endpoint.DNSName e = s)
  /\ ((forall s : string, dnsName <> String.append s ".") ->
      Endpoint.DNSName e = dnsName)
  /\ length (Endpoint.Targets e) = length targets
  /\ (forall (i : nat) (target : string),
         targets !! i = Some target ->
         exists clean : string,
           Endpoint.Targets e !! i = Some clean
           /\ (forall s : string, target = String.append s "." -> clean = s)
           /\ ((forall s : string, target <> String.append s ".") -> clean = target)).
Proof.
  unfold Endpoint.NewEndpointWithTTL.
  destruct (Endpoint.label_too_long (strings.Split dnsName ".")); [discriminate|].
  intros [= <-]. simpl. repeat split.
  - intros s ->. apply TrimSuffix_suffix.
  - apply TrimSuffix_other.
  - apply length_map.
  - intros i target Hi. exists (strings.TrimSuffix target ".").
    repeat split.
    + change (map (fun t => strings.TrimSuffix t ".") targets)
        with ((fun t => strings.TrimSuffix t ".") <$> targets).
      now rewrite list_lookup_fmap, Hi.
    + intros s ->. apply TrimSuffix_suffix.
    + apply TrimSuffix_other.
Qed.
End Construction.

(** ** The claims about [Endpoint] on concrete inputs *)

(** [NewEndpointWithTTL_normalizes] at ["example.org.."] with the targets
    ["1.2.3.4"] and ["lb.example.org."]. *)
Lemma NewEndpointWithTTL_normalizes_witness :
  Endpoint.DNSName
    (Endpoint.mk "example.org." ["1.2.3.4"; "lb.example.org"] "A" "" 300%Z
       Standin.NewLabels []) = "example.org.".
Proof.
  destruct (NewEndpointWithTTL_normalizes Standin.NewLabels
              "example.org.." "A" 300%Z ["1.2.3.4"; "lb.example.org."]
              (Endpoint.mk "example.org." ["1.2.3.4"; "lb.example.org"] "A" ""
                 300%Z Standin.NewLabels [])) as [Hname _].
  - reflexivity.
  - apply Hname. reflexivity.
Defined.

(** [NewEndpointWithTTL_label_guard] at ["example.org"]: both labels are
    short, and the endpoint is built. *)
Lemma NewEndpointWithTTL_label_guard_witness :
  Endpoint.NewEndpointWithTTL Standin.NewLabels "example.org" "A" 300%Z ["1.2.3.4"]
  = Some (Endpoint.mk "example.org" ["1.2.3.4"] "A" "" 300%Z Standin.NewLabels []).
Proof.
  destruct (NewEndpointWithTTL_label_guard Standin.NewLabels
              "example.org" "A" 300%Z ["1.2.3.4"]) as (_ & Hbuilt & _).
  apply Hbuilt. intros label Hl. apply dns_label_Split in Hl.
  apply elem_of_cons in Hl as [->|Hl]; [simpl; lia|].
  apply elem_of_cons in Hl as [->|Hl]; [simpl; lia|].
  now apply elem_of_nil in Hl.
Defined.

(** A label of 64 bytes: no endpoint. *)
Example NewEndpoint_long_label :
  Endpoint.NewEndpoint Standin.NewLabels
    "aaaaaaaaaaaaaaaaaaaaaaaaaaaaaaaaaaaaaaaaaaaaaaaaaaaaaaaaaaaaaaaa.org" "A" []
  = None.
Proof. reflexivity. Qed.

Lemma sample_NoDup : NoDup (names sample).
Proof.
  unfold names, sample. simpl. repeat constructor.
  - intros Hin. apply elem_of_cons in Hin as [Heq|Hin]; [discriminate|].
    now apply elem_of_nil in Hin.
  - apply not_elem_of_nil.
Defined.

Lemma overlay_unique_and_stable_witness :
  Endpoint.ProviderSpecific (Endpoint.SetProviderSpecificProperty sample "k" "v2")
  = [ProviderSpecificProperty.mk "a" "1"; ProviderSpecificProperty.mk "k" "v2"].
Proof.
  destruct overlay_unique_and_stable as (_ & Hset & _).
  apply (Hset sample "k" "v2" 1%nat (ProviderSpecificProperty.mk "k" "v1")).
  - exact sample_NoDup.
  - reflexivity.
  - reflexivity.
Defined.

Lemma overlay_round_trips_witness :
  Endpoint.GetProviderSpecificProperty
    (Endpoint.DeleteProviderSpecificProperty sample "k") "k" = ("", false).
Proof.
  destruct overlay_round_trips as [_ Hdel].
  apply (Hdel sample "k"). exact sample_NoDup.
Defined.

(** The scenario of the specification: of two endpoints with one key owned
    by "x" and a third owned by "y", the filter by "x" keeps the first. *)
Example FilterEndpointsByOwnerID_scenario :
  let owned (name target owner : string) :=
    Endpoint.mk name [target] "A" "" 0%Z {[ "owner" := owner ]} [] in
  Endpoint.FilterEndpointsByOwnerID "owner" "x"
    [owned "a.com" "1.1.1.1" "x"; owned "a.com" "2.2.2.2" "x";
     owned "b.com" "3.3.3.3" "y"]
  = [owned "a.com" "1.1.1.1" "x"].
Proof. vm_compute. reflexivity. Qed.

(** A first endpoint that is not owned still takes its key. *)
Example FilterEndpointsByOwnerID_shadowed :
  let owned (name target owner : string) :=
    Endpoint.mk name [target] "A" "" 0%Z {[ "owner" := owner ]} [] in
  Endpoint.FilterEndpointsByOwnerID "owner" "x"
    [owned "a.com" "1.1.1.1" "y"; owned "a.com" "2.2.2.2" "x"]
  = [].
Proof. vm_compute. reflexivity. Qed.

(** * Part V: further properties of [Targets] *)

(** X1.  [Targets.Less] is the strict order that [sort] asks of an
    [Interface]: no element is less than itself, two elements are never
    less than each other, the relation is transitive, and two elements of
    which neither is less are the same string. *)
Theorem Targets_Less_strict_order (h : Heap) (t : slice) :
  (forall i : nat, Targets.Less h t i i = false)
  /\ (forall i j : nat, Targets.Less h t i j = true -> Targets.Less h t j i = false)
  /\ (forall i j k : nat,
         Targets.Less h t i j = true -> Targets.Less h t j k = true ->
         Targets.Less h t i k = true)
  /\ (forall i j : nat,
         Targets.Less h t i j = false -> Targets.Less h t j i = false ->
         cell h t i = cell h t j).
Proof.
  unfold Targets.Less. repeat split.
  - intros i. apply lt_irrefl.
  - intros i j. apply lt_asym.
  - intros i j k. apply lt_trans.
  - intros i j. apply lt_connected.
Qed.

(** X2.  [sort.Sort] and [sort.Stable], run through [Len], [Less] and [Swap]
    of a valid slice, sort it in place: afterwards the slice is ascending
    and holds the elements it held before, the heap has its size, every
    cell outside the slice has its value, and sorting again changes
    nothing. *)
Theorem Sort_sorts_in_place (h : Heap) (t : slice) :
  valid h t ->
  let h' := sort.Sort (Targets.Interface t) h in
  Sorted GoString.le (elems h' t)
  /\ elems h' t ≡ₚ elems h t
  /\ length h' = length h
  /\ (forall i : nat, (i < ptr t \/ ptr t + len t <= i)%nat -> h' !! i = h !! i)
  /\ sort.Stable (Targets.Interface t) h = h'
  /\ sort.Sort (Targets.Interface t) h' = h'.
Proof.
  intros Hv h'. destruct (Sort_elems h t Hv) as [Hs Hp].
  repeat split; auto.
  - now apply Sort_length.
  - intros i Hi. now apply Sort_frame.
  - now apply Sort_twice.
Qed.

Lemma Sort_sorts_in_place_witness :
  sort.Sort (Targets.Interface (mkSlice 1 3)) ["z"; "c"; "a"; "b"; "y"]
  = sort.Sort (Targets.Interface (mkSlice 1 3))
      (sort.Sort (Targets.Interface (mkSlice 1 3)) ["z"; "c"; "a"; "b"; "y"]).
Proof.
  destruct (Sort_sorts_in_place ["z"; "c"; "a"; "b"; "y"] (mkSlice 1 3))
    as (_ & _ & _ & _ & _ & Hagain).
  - unfold valid; simpl; lia.
  - symmetry. exact Hagain.
Defined.

(** ** [Addr.Less] and the choice at the first difference *)

Lemma Compare_Less_asym (a b : netip.Addr) :
  netip.Less a b = true -> netip.Less b a = false.
Proof.
  unfold netip.Less, netip.Compare.
  assert (HIs6 : netip.BitLen a = netip.BitLen b -> netip.Is6 a = netip.Is6 b).
  { unfold netip.BitLen, netip.Is6.
    destruct (netip.z a), (netip.z b); simpl; congruence. }
  destruct (Z.ltb_spec (netip.BitLen a) (netip.BitLen b));
    destruct (Z.ltb_spec (netip.BitLen b) (netip.BitLen a)); try lia;
    try (simpl; congruence).
  assert (Hbits : netip.BitLen a = netip.BitLen b) by lia.
  rewrite <- (HIs6 Hbits).
  destruct (Z.ltb_spec (netip.hi a) (netip.hi b));
    destruct (Z.ltb_spec (netip.hi b) (netip.hi a)); try lia;
    try (simpl; congruence).
  destruct (Z.ltb_spec (netip.lo a) (netip.lo b));
    destruct (Z.ltb_spec (netip.lo b) (netip.lo a)); try lia;
    try (simpl; congruence).
  destruct (netip.Is6 a); [|simpl; congruence].
  destruct (GoString.lt (netip.Zone a) (netip.Zone b)) eqn:Hab.
  - rewrite (lt_asym _ _ Hab). reflexivity.
  - destruct (GoString.lt (netip.Zone b) (netip.Zone a)); simpl; congruence.
Qed.

Lemma first_difference_swap (st so : list string) :
  first_difference so st
  = (fun p : string * string => (p.2, p.1)) <$> first_difference st so.
Proof.
  revert so. induction st as [|e st IH]; intros [|e' so]; simpl; try reflexivity.
  rewrite (String.eqb_sym e' e).
  destruct (String.eqb e e'); [apply IH|reflexivity].
Qed.

Lemma ascending_perm (l l' st : list string) :
  l ≡ₚ l' -> ascending l st -> ascending l' st.
Proof. intros Hp [Hs Hst]. split; [assumption|now rewrite Hst]. Qed.

Lemma valid_length (h : Heap) (t : slice) : valid h t -> length (elems h t) = len t.
Proof. intros Hv. now destruct (valid_split h t Hv) as (_ & _ & ?). Qed.

Section TargetsMore.
Variable hasUnicode : string -> string -> bool.
Variable parseIPv6 : string -> netip.Addr * option netip.error.

Lemma prefer_asym (e e' : string) :
  Targets.prefer parseIPv6 e e' = true -> Targets.prefer parseIPv6 e' e = false.
Proof.
  unfold Targets.prefer.
  destruct (netip.IsValid (netip.ParseAddr parseIPv6 e).1),
    (netip.IsValid (netip.ParseAddr parseIPv6 e').1); simpl; try congruence.
  - apply Compare_Less_asym.
  - apply lt_asym.
Qed.

(** X3.  [IsLess] is asymmetric on two separate lists: when [IsLess(t, o)]
    is true, [IsLess(o, t)] is false. *)
Theorem IsLess_asymmetric (h : Heap) (t o : slice) :
  valid h t -> valid h o -> disjoint t o ->
  fst (Targets.IsLess parseIPv6 h t o) = Some true ->
  fst (Targets.IsLess parseIPv6 h o t) = Some false.
Proof.
  intros Ht Ho Hd.
  destruct (lt_eq_lt_dec (len t) (len o)) as [[Hlt|Heq]|Hgt].
  - intros _. unfold Targets.IsLess.
    rewrite (proj2 (Nat.ltb_ge _ _) (Nat.lt_le_incl _ _ Hlt)).
    now rewrite (proj2 (Nat.ltb_lt _ _) Hlt).
  - rewrite (IsLess_disjoint parseIPv6 h t o _ _ Ht Ho Hd Heq
               (Sort_elems h t Ht) (Sort_elems h o Ho)).
    rewrite (IsLess_disjoint parseIPv6 h o t _ _ Ho Ht (disjoint_sym _ _ Hd)
               (eq_sym Heq) (Sort_elems h o Ho) (Sort_elems h t Ht)).
    rewrite first_difference_swap.
    destruct (first_difference _ _) as [[e e']|]; simpl; [|discriminate].
    intros [= Hp]. f_equal. now apply prefer_asym.
  - unfold Targets.IsLess.
    rewrite (proj2 (Nat.ltb_ge _ _) (Nat.lt_le_incl _ _ Hgt)).
    rewrite (proj2 (Nat.ltb_lt _ _) Hgt). discriminate.
Qed.

(** X4.  A comparison leaves the heap in a state that further comparisons
    keep: [Same] and [IsLess] leave the same heap, and on that heap both
    return what they returned on the first heap and change no cell. *)
Theorem comparisons_repeat (h : Heap) (t o : slice) :
  valid h t -> valid h o -> disjoint t o ->
  let h1 := snd (Targets.Same hasUnicode h t o) in
  snd (Targets.IsLess parseIPv6 h t o) = h1
  /\ Targets.Same hasUnicode h1 t o = (fst (Targets.Same hasUnicode h t o), h1)
  /\ Targets.IsLess parseIPv6 h1 t o = (fst (Targets.IsLess parseIPv6 h t o), h1).
Proof.
  intros Ht Ho Hd h1.
  destruct (decide (len t = len o)) as [Hlen|Hlen].
  - pose proof (Sort_elems h t Ht) as Hst. pose proof (Sort_elems h o Ho) as Hso.
    destruct (Sort_both h t o _ _ Ht Ho Hd Hst Hso) as (Het & Heo & Hl & _).
    assert (Hh1 : h1 = sort.Sort (Targets.Interface o)
                         (sort.Sort (Targets.Interface t) h))
      by (unfold h1; now rewrite (Same_heap hasUnicode h t o Hlen)).
    assert (Ht1 : valid h1 t) by (rewrite Hh1; unfold valid; rewrite Hl; exact Ht).
    assert (Ho1 : valid h1 o) by (rewrite Hh1; unfold valid; rewrite Hl; exact Ho).
    assert (Hst1 : ascending (elems h1 t)
                     (elems (sort.Sort (Targets.Interface t) h) t)).
    { rewrite Hh1, Het. apply ascending_sorted. apply Hst. }
    assert (Hso1 : ascending (elems h1 o)
                     (elems (sort.Sort (Targets.Interface o) h) o)).
    { rewrite Hh1, Heo. apply ascending_sorted. apply Hso. }
    assert (Hfix : sort.Sort (Targets.Interface o)
                     (sort.Sort (Targets.Interface t) h1) = h1).
    { rewrite (Sort_sorted h1 t Ht1) by (rewrite Hh1, Het; apply Hst).
      apply (Sort_sorted h1 o Ho1). rewrite Hh1, Heo. apply Hso. }
    split; [|split].
    + rewrite Hh1. apply (IsLess_heap parseIPv6 h t o Hlen).
    + rewrite (surjective_pairing (Targets.Same hasUnicode h1 t o)).
      rewrite (Same_heap hasUnicode h1 t o Hlen), Hfix. f_equal.
      rewrite (Same_disjoint hasUnicode h1 t o _ _ Ht1 Ho1 Hd Hlen Hst1 Hso1).
      now rewrite (Same_disjoint hasUnicode h t o _ _ Ht Ho Hd Hlen Hst Hso).
    + rewrite (surjective_pairing (Targets.IsLess parseIPv6 h1 t o)).
      rewrite (IsLess_heap parseIPv6 h1 t o Hlen), Hfix. f_equal.
      rewrite (IsLess_disjoint parseIPv6 h1 t o _ _ Ht1 Ho1 Hd Hlen Hst1 Hso1).
      now rewrite (IsLess_disjoint parseIPv6 h t o _ _ Ht Ho Hd Hlen Hst Hso).
  - destruct (compare_heap_unchanged hasUnicode parseIPv6 h t o Hlen) as [HS HL].
    unfold h1. rewrite HS, HL. repeat split.
    + rewrite <- HS at 3. apply surjective_pairing.
    + rewrite <- HL at 3. apply surjective_pairing.
Qed.

(** X5.  On two lists that share no cell, the results of [Same] and
    [IsLess] do not depend on the order in which the lists hold their
    elements: on two heaps in which [t] holds the same elements up to
    order, and [o] too, both return the same result.  (Lists that overlap
    in part are another matter, see [comparisons_overlap_order].) *)
Theorem comparisons_order_independent (h h' : Heap) (t o : slice) :
  valid h t -> valid h o -> valid h' t -> valid h' o -> disjoint t o ->
  elems h t ≡ₚ elems h' t -> elems h o ≡ₚ elems h' o ->
  fst (Targets.Same hasUnicode h t o) = fst (Targets.Same hasUnicode h' t o)
  /\ fst (Targets.IsLess parseIPv6 h t o) = fst (Targets.IsLess parseIPv6 h' t o).
Proof.
  intros Ht Ho Ht' Ho' Hd Hpt Hpo.
  destruct (decide (len t = len o)) as [Hlen|Hlen].
  - pose proof (Sort_elems h t Ht) as Hst. pose proof (Sort_elems h o Ho) as Hso.
    split.
    + rewrite (Same_disjoint hasUnicode h t o _ _ Ht Ho Hd Hlen Hst Hso).
      now rewrite (Same_disjoint hasUnicode h' t o _ _ Ht' Ho' Hd Hlen
                     (ascending_perm _ _ _ Hpt Hst) (ascending_perm _ _ _ Hpo Hso)).
    + rewrite (IsLess_disjoint parseIPv6 h t o _ _ Ht Ho Hd Hlen Hst Hso).
      now rewrite (IsLess_disjoint parseIPv6 h' t o _ _ Ht' Ho' Hd Hlen
                     (ascending_perm _ _ _ Hpt Hst) (ascending_perm _ _ _ Hpo Hso)).
  - unfold Targets.Same, Targets.IsLess.
    rewrite (proj2 (Nat.eqb_neq _ _) Hlen). split; [reflexivity|].
    destruct (len t <? len o)%nat eqn:Hlt; [reflexivity|].
    destruct (len o <? len t)%nat eqn:Hgt; [reflexivity|].
    apply Nat.ltb_ge in Hlt, Hgt. lia.
Qed.

(** X6.  Two separate lists that hold the same strings, in any order, are
    the [Same] and neither [IsLess] than the other, given that the fold of
    runes outside ASCII relates every string to itself. *)
Theorem permuted_lists_compare_equal (h : Heap) (t o : slice) :
  (forall u : string, hasUnicode u u = true) ->
  valid h t -> valid h o -> disjoint t o ->
  elems h t ≡ₚ elems h o ->
  fst (Targets.Same hasUnicode h t o) = Some true
  /\ fst (Targets.IsLess parseIPv6 h t o) = Some false
  /\ fst (Targets.IsLess parseIPv6 h o t) = Some false.
Proof.
  intros Hrefl Ht Ho Hd Hp.
  assert (Hlen : len t = len o).
  { rewrite <- (valid_length h t Ht), <- (valid_length h o Ho). now rewrite Hp. }
  pose proof (Sort_elems h t Ht) as Hst.
  pose proof (ascending_perm _ _ _ Hp Hst) as Hso.
  split; [|split].
  - rewrite (Same_disjoint hasUnicode h t o _ _ Ht Ho Hd Hlen Hst Hso).
    now rewrite pairwise_fold_refl.
  - rewrite (IsLess_disjoint parseIPv6 h t o _ _ Ht Ho Hd Hlen Hst Hso).
    now rewrite first_difference_refl.
  - rewrite (IsLess_disjoint parseIPv6 h o t _ _ Ho Ht (disjoint_sym _ _ Hd)
               (eq_sym Hlen) Hso Hst).
    now rewrite first_difference_refl.
Qed.
End TargetsMore.

(** ** Host names are not addresses *)

Lemma has_byte_cons (c a : ascii) (rest : string) :
  has_byte c (String a rest) = true -> a <> c -> has_byte c rest = true.
Proof.
  simpl. intros H Hne. destruct (Ascii.eqb_spec a c); [contradiction|exact H].
Qed.

(** The IPv4 loop fails on every string with a byte that is neither a digit
    nor a dot, whatever its state. *)
Lemma parseIPv4_loop_bad_byte (rest : string) :
  forall (prev : option ascii) (val : Z) (pos digLen : nat) (fields : list Z),
    (exists c : ascii,
        has_byte c rest = true /\ netip.is_digit c = false /\ c <> "."%char) ->
    netip.parseIPv4_loop rest prev val pos digLen fields = None.
Proof.
  induction rest as [|a rest IH]; intros prev val pos digLen fields (c & Hc & Hd & Hdot).
  - discriminate.
  - simpl. destruct (netip.is_digit a) eqn:Ha.
    + assert (Hrest : has_byte c rest = true)
        by (apply (has_byte_cons c a); [assumption|congruence]).
      destruct ((digLen =? 1)%nat && (val =? 0)%Z); [reflexivity|].
      destruct (255 <? val * 10 + Z.of_N (GoString.byte a) - 48)%Z; [reflexivity|].
      apply IH. eauto.
    + destruct (Ascii.eqb_spec a ".") as [->|Hna]; [|reflexivity].
      assert (Hrest : has_byte c rest = true)
        by (apply (has_byte_cons c "."); [assumption|congruence]).
      destruct (match prev with Some p => Ascii.eqb p "." | None => true end
                || match rest with EmptyString => true | String _ _ => false end);
        [reflexivity|].
      destruct (pos =? 3)%nat; [reflexivity|].
      apply IH. eauto.
Qed.

Lemma ParseAddr_not_address (parseIPv6 : string -> netip.Addr * option netip.error)
    (s : string) :
  not_address s -> netip.IsValid (netip.ParseAddr parseIPv6 s).1 = false.
Proof.
  intros (Hcolon & Hpercent & Hbad). unfold netip.ParseAddr.
  assert (Hscan : forall rest : string,
             has_byte ":" rest = false -> has_byte "%" rest = false ->
             netip.IsValid (netip.ParseAddr_scan parseIPv6 s rest).1 = false).
  { induction rest as [|c rest IH]; simpl; [reflexivity|].
    intros Hc Hp. apply orb_false_iff in Hc as [Hc Hc'].
    apply orb_false_iff in Hp as [Hp Hp'].
    destruct (Ascii.eqb c ".").
    - unfold netip.parseIPv4. now rewrite parseIPv4_loop_bad_byte.
    - rewrite Hc, Hp. now apply IH. }
  now apply Hscan.
Qed.

Section TargetsAddresses.
Variable parseIPv6 : string -> netip.Addr * option netip.error.

(** X7.  [IsLess] prefers an address to a host name: of two separate
    one-element lists, the one with a valid IP address is less than the one
    with a string that cannot be an address (no [':'] or ['%'], and some
    byte that is neither digit nor dot), and not the other way round,
    however the two strings compare byte by byte. *)
Theorem IsLess_prefers_address (h : Heap) (t o : slice) (ip host : string) :
  valid h t -> valid h o -> disjoint t o ->
  elems h t = [ip] -> elems h o = [host] ->
  netip.IsValid (netip.ParseAddr parseIPv6 ip).1 = true ->
  not_address host ->
  fst (Targets.IsLess parseIPv6 h t o) = Some true
  /\ fst (Targets.IsLess parseIPv6 h o t) = Some false.
Proof.
  intros Ht Ho Hd Het Heo Hip Hhost.
  pose proof (ParseAddr_not_address parseIPv6 host Hhost) as Hinvalid.
  assert (Hlen : len t = len o).
  { rewrite <- (valid_length h t Ht), <- (valid_length h o Ho).
    now rewrite Het, Heo. }
  assert (Hst : ascending (elems h t) [ip])
    by (rewrite Het; apply ascending_sorted; repeat constructor).
  assert (Hso : ascending (elems h o) [host])
    by (rewrite Heo; apply ascending_sorted; repeat constructor).
  assert (Hne : String.eqb ip host = false).
  { apply String.eqb_neq. intros ->. congruence. }
  split.
  - rewrite (IsLess_disjoint parseIPv6 h t o _ _ Ht Ho Hd Hlen Hst Hso).
    simpl. rewrite Hne. unfold Targets.prefer. now rewrite Hip, Hinvalid.
  - rewrite (IsLess_disjoint parseIPv6 h o t _ _ Ho Ht (disjoint_sym _ _ Hd)
               (eq_sym Hlen) Hso Hst).
    simpl. rewrite String.eqb_sym, Hne. unfold Targets.prefer.
    now rewrite Hip, Hinvalid.
Qed.
End TargetsAddresses.

(** X8.  [Targets.String] can be read back: a list that is not empty and
    whose targets hold no [';'] is what [strings.Split] makes of its
    rendering.  The empty list renders as the empty string, which reads back
    as one empty target. *)
Theorem Targets_String_Split :
  (forall t : list string,
      t <> [] -> Forall (fun target => has_byte ";" target = false) t ->
      strings.Split (Targets.String t) ";" = t)
  /\ strings.Split (Targets.String []) ";" = [""].
Proof.
  split; [|reflexivity].
  intros t Hne Hfree. unfold Targets.String. now apply Split_concat.
Qed.

(** ** The further properties of [Targets] on concrete heaps *)

Lemma IsLess_asymmetric_witness :
  fst (Targets.IsLess Standin.parseIPv6 ["b.example"; "a.example"]
         (mkSlice 0 1) (mkSlice 1 1)) = Some false.
Proof.
  apply (IsLess_asymmetric Standin.parseIPv6 ["b.example"; "a.example"]
           (mkSlice 1 1) (mkSlice 0 1)).
  - unfold valid; simpl; lia.
  - unfold valid; simpl; lia.
  - unfold disjoint; simpl; lia.
  - reflexivity.
Defined.

Lemma comparisons_repeat_witness :
  Targets.IsLess Standin.parseIPv6 ["a"; "b"; "c"; "d"] (mkSlice 0 2) (mkSlice 2 2)
  = (fst (Targets.IsLess Standin.parseIPv6 ["b"; "a"; "d"; "c"]
            (mkSlice 0 2) (mkSlice 2 2)), ["a"; "b"; "c"; "d"]).
Proof.
  destruct (comparisons_repeat Standin.hasUnicode Standin.parseIPv6
              ["b"; "a"; "d"; "c"] (mkSlice 0 2) (mkSlice 2 2))
    as (_ & _ & Hless).
  - unfold valid; simpl; lia.
  - unfold valid; simpl; lia.
  - unfold disjoint; simpl; lia.
  - exact Hless.
Defined.

Lemma comparisons_order_independent_witness :
  fst (Targets.Same Standin.hasUnicode ["b"; "a"; "B"; "A"]
         (mkSlice 0 2) (mkSlice 2 2))
  = fst (Targets.Same Standin.hasUnicode ["a"; "b"; "A"; "B"]
           (mkSlice 0 2) (mkSlice 2 2)).
Proof.
  apply (comparisons_order_independent Standin.hasUnicode Standin.parseIPv6
           ["b"; "a"; "B"; "A"] ["a"; "b"; "A"; "B"] (mkSlice 0 2) (mkSlice 2 2)).
  - unfold valid; simpl; lia.
  - unfold valid; simpl; lia.
  - unfold valid; simpl; lia.
  - unfold valid; simpl; lia.
  - unfold disjoint; simpl; lia.
  - apply perm_swap.
  - apply perm_swap.
Defined.

Lemma permuted_lists_compare_equal_witness :
  fst (Targets.Same Standin.hasUnicode ["b"; "a"; "a"; "b"]
         (mkSlice 0 2) (mkSlice 2 2)) = Some true.
Proof.
  apply (permuted_lists_compare_equal Standin.hasUnicode Standin.parseIPv6
           ["b"; "a"; "a"; "b"] (mkSlice 0 2) (mkSlice 2 2)).
  - intros u. apply String.eqb_refl.
  - unfold valid; simpl; lia.
  - unfold valid; simpl; lia.
  - unfold disjoint; simpl; lia.
  - apply perm_swap.
Defined.

Lemma IsLess_prefers_address_witness :
  fst (Targets.IsLess Standin.parseIPv6 ["1.2.3.4"; "1-2-3-4.example.com"]
         (mkSlice 1 1) (mkSlice 0 1)) = Some false.
Proof.
  apply (IsLess_prefers_address Standin.parseIPv6
           ["1.2.3.4"; "1-2-3-4.example.com"] (mkSlice 0 1) (mkSlice 1 1)
           "1.2.3.4" "1-2-3-4.example.com").
  - unfold valid; simpl; lia.
  - unfold valid; simpl; lia.
  - unfold disjoint; simpl; lia.
  - reflexivity.
  - reflexivity.
  - reflexivity.
  - repeat split; try reflexivity. exists "-"%char. repeat split; discriminate.
Defined.

Lemma Targets_String_Split_witness :
  strings.Split (Targets.String ["1.2.3.4"; "lb.example.org"]) ";"
  = ["1.2.3.4"; "lb.example.org"].
Proof.
  destruct Targets_String_Split as [Hback _]. apply Hback.
  - discriminate.
  - repeat constructor.
Defined.

(** * Part VI: further properties of the overlay *)

Lemma with_ProviderSpecific_id (e : Endpoint.t) :
  Endpoint.with_ProviderSpecific e (Endpoint.ProviderSpecific e) = e.
Proof. now destruct e. Qed.

Lemma with_ProviderSpecific_twice (e : Endpoint.t) (ps ps' : list Property) :
  Endpoint.with_ProviderSpecific (Endpoint.with_ProviderSpecific e ps) ps'
  = Endpoint.with_ProviderSpecific e ps'.
Proof. reflexivity. Qed.

Lemma Set_overlay_set (e : Endpoint.t) (key value : string) :
  Endpoint.SetProviderSpecificProperty e key value
  = Endpoint.with_ProviderSpecific e (overlay_set (Endpoint.ProviderSpecific e) key value).
Proof.
  unfold Endpoint.SetProviderSpecificProperty, overlay_set.
  now destruct (Endpoint.find_Name (Endpoint.ProviderSpecific e) key).
Qed.

Lemma Delete_overlay_delete (e : Endpoint.t) (key : string) :
  Endpoint.DeleteProviderSpecificProperty e key
  = Endpoint.with_ProviderSpecific e (overlay_delete (Endpoint.ProviderSpecific e) key).
Proof.
  unfold Endpoint.DeleteProviderSpecificProperty, overlay_delete.
  destruct (Endpoint.find_Name (Endpoint.ProviderSpecific e) key);
    [reflexivity|now rewrite with_ProviderSpecific_id].
Qed.

Lemma overlay_set_cons (p : Property) (ps : list Property) (key value : string) :
  overlay_set (p :: ps) key value
  = if String.eqb (Name p) key
    then ProviderSpecificProperty.mk key value :: ps
    else p :: overlay_set ps key value.
Proof.
  unfold overlay_set. simpl.
  destruct (String.eqb (Name p) key); [reflexivity|].
  now destruct (Endpoint.find_Name ps key).
Qed.

Lemma overlay_delete_cons (p : Property) (ps : list Property) (key : string) :
  overlay_delete (p :: ps) key
  = if String.eqb (Name p) key then ps else p :: overlay_delete ps key.
Proof.
  unfold overlay_delete. simpl.
  destruct (String.eqb (Name p) key); [reflexivity|].
  now destruct (Endpoint.find_Name ps key).
Qed.

Lemma Get_range_set_other (ps : list Property) (k k' v : string) :
  k <> k' -> Endpoint.Get_range (overlay_set ps k v) k' = Endpoint.Get_range ps k'.
Proof.
  intros Hne. induction ps as [|p ps IH].
  - cbn. now rewrite (proj2 (String.eqb_neq k k') Hne).
  - rewrite overlay_set_cons.
    destruct (String.eqb_spec (Name p) k) as [Hp|Hp]; simpl.
    + rewrite (proj2 (String.eqb_neq k k') Hne).
      rewrite Hp. now rewrite (proj2 (String.eqb_neq k k') Hne).
    + now rewrite IH.
Qed.

Lemma Get_range_delete_other (ps : list Property) (k k' : string) :
  k <> k' -> Endpoint.Get_range (overlay_delete ps k) k' = Endpoint.Get_range ps k'.
Proof.
  intros Hne. induction ps as [|p ps IH]; [reflexivity|].
  rewrite overlay_delete_cons.
  destruct (String.eqb_spec (Name p) k) as [Hp|Hp]; simpl.
  - rewrite Hp. now rewrite (proj2 (String.eqb_neq k k') Hne).
  - now rewrite IH.
Qed.

(** X12.  [Set] and [Delete] of one name leave what [Get] returns for every
    other name as it was, whether or not the names of the overlay are
    unique. *)
Theorem overlay_other_names (e : Endpoint.t) (k k' v : string) :
  k <> k' ->
  Endpoint.GetProviderSpecificProperty (Endpoint.SetProviderSpecificProperty e k v) k'
  = Endpoint.GetProviderSpecificProperty e k'
  /\ Endpoint.GetProviderSpecificProperty (Endpoint.DeleteProviderSpecificProperty e k) k'
     = Endpoint.GetProviderSpecificProperty e k'.
Proof.
  intros Hne. rewrite Set_overlay_set, Delete_overlay_delete.
  unfold Endpoint.GetProviderSpecificProperty. simpl.
  split; [now apply Get_range_set_other|now apply Get_range_delete_other].
Qed.

Lemma overlay_set_set (ps : list Property) (k v1 v2 : string) :
  overlay_set (overlay_set ps k v1) k v2 = overlay_set ps k v2.
Proof.
  induction ps as [|p ps IH].
  - change (overlay_set [] k v1) with [ProviderSpecificProperty.mk k v1].
    rewrite overlay_set_cons. simpl. now rewrite String.eqb_refl.
  - rewrite !(overlay_set_cons p).
    destruct (String.eqb (Name p) k) eqn:Hp.
    + rewrite overlay_set_cons. simpl. now rewrite String.eqb_refl.
    + rewrite overlay_set_cons, Hp. now rewrite IH.
Qed.

Lemma overlay_delete_set (ps : list Property) (k v : string) :
  overlay_delete (overlay_set ps k v) k = overlay_delete ps k.
Proof.
  induction ps as [|p ps IH].
  - change (overlay_set [] k v) with [ProviderSpecificProperty.mk k v].
    rewrite overlay_delete_cons. simpl. now rewrite String.eqb_refl.
  - rewrite overlay_set_cons, (overlay_delete_cons p).
    destruct (String.eqb (Name p) k) eqn:Hp.
    + rewrite overlay_delete_cons. simpl. now rewrite String.eqb_refl.
    + rewrite overlay_delete_cons, Hp. now rewrite IH.
Qed.

Lemma overlay_delete_absent (ps : list Property) (k : string) :
  k ∉ (Name <$> ps) -> overlay_delete ps k = ps.
Proof.
  intros Hno. unfold overlay_delete.
  now rewrite (proj2 (find_Name_None ps k) Hno).
Qed.

(** X13.  The last [Set] of a name wins: [Set(k, v1)] then [Set(k, v2)] is
    [Set(k, v2)].  [Delete(k)] after [Set(k, v)] is [Delete(k)], so setting
    a name the overlay does not hold and deleting it gives the endpoint
    back; and on an overlay with unique names a second [Delete(k)] changes
    nothing. *)
Theorem overlay_set_delete_compose :
  (forall (e : Endpoint.t) (k v1 v2 : string),
      Endpoint.SetProviderSpecificProperty
        (Endpoint.SetProviderSpecificProperty e k v1) k v2
      = Endpoint.SetProviderSpecificProperty e k v2)
  /\ (forall (e : Endpoint.t) (k v : string),
         Endpoint.DeleteProviderSpecificProperty
           (Endpoint.SetProviderSpecificProperty e k v) k
         = Endpoint.DeleteProviderSpecificProperty e k)
  /\ (forall (e : Endpoint.t) (k v : string),
         k ∉ names e ->
         Endpoint.DeleteProviderSpecificProperty
           (Endpoint.SetProviderSpecificProperty e k v) k = e)
  /\ (forall (e : Endpoint.t) (k : string),
         NoDup (names e) ->
         Endpoint.DeleteProviderSpecificProperty
           (Endpoint.DeleteProviderSpecificProperty e k) k
         = Endpoint.DeleteProviderSpecificProperty e k).
Proof.
  repeat split.
  - intros e k v1 v2. rewrite !Set_overlay_set. simpl.
    now rewrite overlay_set_set.
  - intros e k v. rewrite Set_overlay_set, !Delete_overlay_delete. simpl.
    now rewrite overlay_delete_set.
  - intros e k v Hno. rewrite Set_overlay_set, Delete_overlay_delete. simpl.
    rewrite overlay_delete_set, overlay_delete_absent by assumption.
    rewrite with_ProviderSpecific_twice. apply with_ProviderSpecific_id.
  - intros e k Hnd. rewrite (Delete_overlay_delete e k).
    rewrite Delete_overlay_delete. simpl. f_equal.
    apply overlay_delete_absent.
    pose proof (Delete_filter (Endpoint.ProviderSpecific e) k Hnd) as Hf.
    fold (overlay_delete (Endpoint.ProviderSpecific e) k) in Hf. rewrite Hf.
    now apply NoDup_filter_names.
Qed.

Lemma Get_range_found (ps : list Property) (k : string) :
  (Endpoint.Get_range ps k).2 = true <-> k ∈ (Name <$> ps).
Proof.
  induction ps as [|p ps IH]; simpl.
  - split; [discriminate|]. intros Hin. now apply elem_of_nil in Hin.
  - rewrite elem_of_cons.
    destruct (String.eqb_spec (Name p) k) as [Hp|Hp]; simpl.
    + split; [auto|reflexivity].
    + rewrite IH. split; [auto|]. intros [Hk|Hk]; [congruence|assumption].
Qed.

Lemma Get_range_stored (ps : list Property) (p : Property) :
  NoDup (Name <$> ps) -> p ∈ ps ->
  Endpoint.Get_range ps (Name p) = (Value p, true).
Proof.
  induction ps as [|q ps IH]; intros Hnd Hin.
  - now apply elem_of_nil in Hin.
  - simpl in Hnd. apply NoDup_cons in Hnd as [Hq Hnd].
    apply elem_of_cons in Hin as [->|Hin]; simpl.
    + now rewrite String.eqb_refl.
    + destruct (String.eqb_spec (Name q) (Name p)) as [Heq|Hne]; [|now apply IH].
      destruct Hq. rewrite Heq. now apply list_elem_of_fmap_2.
Qed.

(** X14.  [Get] finds a name exactly when the overlay holds it, and returns
    [("", false)] otherwise; on an overlay with unique names it returns,
    for the name of every entry, the value of that entry. *)
Theorem Get_finds_what_is_stored :
  (forall (e : Endpoint.t) (k : string),
      (Endpoint.GetProviderSpecificProperty e k).2 = true <-> k ∈ names e)
  /\ (forall (e : Endpoint.t) (k : string),
         k ∉ names e -> Endpoint.GetProviderSpecificProperty e k = ("", false))
  /\ (forall (e : Endpoint.t) (p : Property),
         NoDup (names e) -> p ∈ Endpoint.ProviderSpecific e ->
         Endpoint.GetProviderSpecificProperty e (Name p) = (Value p, true)).
Proof.
  repeat split.
  - now apply Get_range_found.
  - now apply Get_range_found.
  - intros e k. apply Get_range_absent.
  - intros e p. apply Get_range_stored.
Qed.

Lemma overlay_other_names_witness :
  Endpoint.GetProviderSpecificProperty
    (Endpoint.DeleteProviderSpecificProperty sample "a") "k" = ("v1", true).
Proof.
  destruct (overlay_other_names sample "a" "k" "2") as [_ Hdel].
  - discriminate.
  - rewrite Hdel. reflexivity.
Defined.

Lemma overlay_set_delete_compose_witness :
  Endpoint.DeleteProviderSpecificProperty
    (Endpoint.SetProviderSpecificProperty sample "z" "9") "z" = sample.
Proof.
  destruct overlay_set_delete_compose as (_ & _ & Hback & _).
  apply Hback. unfold names, sample. simpl.
  intros Hin. apply elem_of_cons in Hin as [Heq|Hin]; [discriminate|].
  apply elem_of_cons in Hin as [Heq|Hin]; [discriminate|].
  now apply elem_of_nil in Hin.
Defined.

Lemma Get_finds_what_is_stored_witness :
  Endpoint.GetProviderSpecificProperty sample "k" = ("v1", true).
Proof.
  destruct Get_finds_what_is_stored as (_ & _ & Hstored).
  apply (Hstored sample (ProviderSpecificProperty.mk "k" "v1")).
  - exact sample_NoDup.
  - right. left.
Defined.

(** * Part VII: further properties of construction *)

#[local] Arguments String.append !_ _ / : simpl nomatch.

Lemma Split_from_snoc (s : string) (sep : ascii) :
  forall label : string,
    strings.Split_from label (String.append s (String sep "")) sep
    = strings.Split_from label s sep ++ [""].
Proof.
  induction s as [|c s IH]; intros label; simpl.
  - now rewrite Ascii.eqb_refl.
  - destruct (Ascii.eqb c sep); [|apply IH].
    now rewrite IH.
Qed.

Lemma label_too_long_snoc (labels : list string) :
  Endpoint.label_too_long (labels ++ [""]) = Endpoint.label_too_long labels.
Proof.
  induction labels as [|x xs IH]; simpl; [reflexivity|].
  now rewrite IH.
Qed.

Lemma label_too_long_dot (name : string) :
  Endpoint.label_too_long (strings.Split (String.append name ".") ".")
  = Endpoint.label_too_long (strings.Split name ".").
Proof.
  unfold strings.Split. now rewrite Split_from_snoc, label_too_long_snoc.
Qed.

(** The labels of the normalized name are labels of the name. *)
Lemma Split_TrimSuffix (name label : string) :
  label ∈ strings.Split (strings.TrimSuffix name ".") "." ->
  label ∈ strings.Split name ".".
Proof.
  destruct (strings.HasSuffix name ".") eqn:Hs.
  - apply HasSuffix_iff in Hs as [s ->]. rewrite TrimSuffix_suffix.
    unfold strings.Split. rewrite Split_from_snoc. intros Hin.
    apply elem_of_app. now left.
  - unfold strings.TrimSuffix. now rewrite Hs.
Qed.

Section ConstructionMore.
Variable NewLabels : gmap string string.

(** X9.  A trailing dot does not matter to construction: [dnsName] with a
    dot appended is refused exactly when [dnsName] is, and when [dnsName]
    does not end in a dot both give the same endpoint. *)
Theorem NewEndpointWithTTL_trailing_dot
    (dnsName recordType : string) (ttl : TTL) (targets : list string) :
  (Endpoint.NewEndpointWithTTL NewLabels (String.append dnsName ".") recordType
     ttl targets = None
   <-> Endpoint.NewEndpointWithTTL NewLabels dnsName recordType ttl targets = None)
  /\ ((forall s : string, dnsName <> String.append s ".") ->
      Endpoint.NewEndpointWithTTL NewLabels (String.append dnsName ".") recordType
        ttl targets
      = Endpoint.NewEndpointWithTTL NewLabels dnsName recordType ttl targets).
Proof.
  unfold Endpoint.NewEndpointWithTTL. rewrite label_too_long_dot.
  destruct (Endpoint.label_too_long (strings.Split dnsName ".")).
  - split; [tauto|reflexivity].
  - split; [split; discriminate|].
    intros Hno. now rewrite TrimSuffix_suffix, TrimSuffix_other.
Qed.

(** X10.  No endpoint that [NewEndpointWithTTL] returns has a label of more
    than 63 bytes in its [DNSName]. *)
Theorem NewEndpointWithTTL_labels_short
    (dnsName recordType : string) (ttl : TTL) (targets : list string)
    (e : Endpoint.t) (label : string) :
  Endpoint.NewEndpointWithTTL NewLabels dnsName recordType ttl targets = Some e ->
  dns_label (Endpoint.DNSName e) label ->
  (String.length label <= 63)%nat.
Proof.
  unfold Endpoint.NewEndpointWithTTL.
  destruct (Endpoint.label_too_long (strings.Split dnsName ".")) eqn:Hlong;
    [discriminate|].
  intros [= <-]. simpl. intros Hl.
  apply dns_label_Split, Split_TrimSuffix in Hl.
  destruct (Nat.le_gt_cases (String.length label) 63) as [Hle|Hgt]; [assumption|].
  assert (Htrue : Endpoint.label_too_long (strings.Split dnsName ".") = true)
    by (apply label_too_long_iff; eauto).
  congruence.
Qed.

(** X11.  An endpoint fresh from a constructor has an empty overlay ([Get]
    finds no name), no set identifier, so its key is the normalized name
    and the record type, and a TTL that is configured exactly when the
    [ttl] given is positive; [NewEndpoint] never configures the TTL. *)
Theorem constructed_endpoint_is_fresh
    (dnsName recordType : string) (targets : list string) :
  (forall (ttl : TTL) (e : Endpoint.t),
      Endpoint.NewEndpointWithTTL NewLabels dnsName recordType ttl targets = Some e ->
      (forall k : string, Endpoint.GetProviderSpecificProperty e k = ("", false))
      /\ Endpoint.Key e
         = EndpointKey.mk (strings.TrimSuffix dnsName ".") recordType ""
      /\ (TTL_IsConfigured (Endpoint.RecordTTL e) = true <-> (0 < ttl)%Z))
  /\ (forall e : Endpoint.t,
         Endpoint.NewEndpoint NewLabels dnsName recordType targets = Some e ->
         TTL_IsConfigured (Endpoint.RecordTTL e) = false).
Proof.
  unfold Endpoint.NewEndpoint, Endpoint.NewEndpointWithTTL.
  destruct (Endpoint.label_too_long (strings.Split dnsName "."));
    split; try discriminate.
  - intros ttl e [= <-]. repeat split; simpl.
    + unfold TTL_IsConfigured. apply Z.ltb_lt.
    + unfold TTL_IsConfigured. apply Z.ltb_lt.
  - intros e [= <-]. reflexivity.
Qed.
End ConstructionMore.

Lemma NewEndpointWithTTL_trailing_dot_witness :
  Endpoint.NewEndpointWithTTL Standin.NewLabels "example.org." "A" 300%Z ["1.2.3.4"]
  = Endpoint.NewEndpointWithTTL Standin.NewLabels "example.org" "A" 300%Z ["1.2.3.4"].
Proof.
  destruct (NewEndpointWithTTL_trailing_dot Standin.NewLabels
              "example.org" "A" 300%Z ["1.2.3.4"]) as [_ Hsame].
  apply Hsame. intros s Hs.
  assert (Hsuffix : strings.HasSuffix "example.org" "." = true)
    by (apply HasSuffix_iff; eauto).
  discriminate.
Defined.

Lemma NewEndpointWithTTL_labels_short_witness :
  (String.length "org" <= 63)%nat.
Proof.
  apply (NewEndpointWithTTL_labels_short Standin.NewLabels
           "example.org." "A" 300%Z ["1.2.3.4"]
           (Endpoint.mk "example.org" ["1.2.3.4"] "A" "" 300%Z Standin.NewLabels [])).
  - reflexivity.
  - apply dns_label_Split. right. left.
Defined.

Lemma constructed_endpoint_is_fresh_witness :
  TTL_IsConfigured 0%Z = false.
Proof.
  destruct (constructed_endpoint_is_fresh Standin.NewLabels
              "example.org" "A" ["1.2.3.4"]) as [_ Hnew].
  apply (Hnew (Endpoint.mk "example.org" ["1.2.3.4"] "A" "" 0%Z
                 Standin.NewLabels [])).
  reflexivity.
Defined.

(** * Part VIII: further properties of the filter by owner *)

Section FilterMore.
Variable OwnerLabelKey : string.

Lemma Filter_eq_kept (ownerID : string) (eps : list Endpoint.t) :
  Endpoint.FilterEndpointsByOwnerID OwnerLabelKey ownerID eps
  = kept OwnerLabelKey ownerID eps.
Proof.
  unfold Endpoint.FilterEndpointsByOwnerID.
  rewrite (Filter_range_kept OwnerLabelKey ownerID eps [] [] ∅); [reflexivity|].
  intros k. rewrite lookup_empty. simpl. split; [discriminate|].
  intros Hin. now apply elem_of_nil in Hin.
Qed.

(** The keys of what the loop returns are unique when those of what it has
    gathered are and every one of them is marked as visited. *)
Lemma Filter_range_NoDup (ownerID : string) (eps : list Endpoint.t) :
  forall (filtered : list Endpoint.t) (visited : gmap EndpointKey.t bool),
    NoDup (Endpoint.Key <$> filtered) ->
    (forall e, e ∈ filtered -> default false (visited !! Endpoint.Key e) = true) ->
    NoDup (Endpoint.Key <$> Endpoint.Filter_range OwnerLabelKey ownerID eps filtered visited).
Proof.
  induction eps as [|ep eps IH]; intros filtered visited Hnd Hvis; simpl;
    [assumption|].
  change (Endpoint.filter_key ep) with (Endpoint.Key ep).
  destruct (default false (visited !! Endpoint.Key ep)) eqn:Hseen; [now apply IH|].
  assert (Hkeep : forall e, e ∈ filtered ->
            default false (<[Endpoint.Key ep := true]> visited !! Endpoint.Key e) = true).
  { intros e He. destruct (decide (Endpoint.Key ep = Endpoint.Key e)) as [->|Hne].
    - now rewrite lookup_insert_eq.
    - rewrite lookup_insert_ne by assumption. now apply Hvis. }
  destruct (Endpoint.Labels ep !! OwnerLabelKey) as [endpointOwner|];
    [|now apply IH].
  destruct (negb (String.eqb endpointOwner ownerID)); [now apply IH|].
  apply IH.
  - rewrite fmap_app. apply NoDup_app. repeat split; [assumption| |].
    + intros k Hk Hin. apply list_elem_of_singleton in Hin. subst k.
      apply list_elem_of_fmap in Hk as (e & Hke & He).
      apply Hvis in He. rewrite <- Hke in He. congruence.
    + apply NoDup_singleton.
  - intros e He. apply elem_of_app in He as [He|He]; [now apply Hkeep|].
    apply list_elem_of_singleton in He. subst e. now rewrite lookup_insert_eq.
Qed.

Lemma elem_of_Filter_owned (ownerID : string) (eps : list Endpoint.t) (ep : Endpoint.t) :
  ep ∈ Endpoint.FilterEndpointsByOwnerID OwnerLabelKey ownerID eps ->
  Endpoint.Labels ep !! OwnerLabelKey = Some ownerID.
Proof.
  rewrite Filter_eq_kept, elem_of_kept. now intros (i & _ & _ & Hown).
Qed.

(** X15.  No two endpoints that [FilterEndpointsByOwnerID] returns have the
    same key, and no endpoint is returned for two different owners. *)
Theorem Filter_keys_unique (eps : list Endpoint.t) :
  (forall ownerID : string,
      NoDup (Endpoint.Key <$> Endpoint.FilterEndpointsByOwnerID OwnerLabelKey ownerID eps))
  /\ (forall (owner1 owner2 : string) (ep : Endpoint.t),
         ep ∈ Endpoint.FilterEndpointsByOwnerID OwnerLabelKey owner1 eps ->
         ep ∈ Endpoint.FilterEndpointsByOwnerID OwnerLabelKey owner2 eps ->
         owner1 = owner2).
Proof.
  split.
  - intros ownerID. apply Filter_range_NoDup; [constructor|].
    intros e He. now apply elem_of_nil in He.
  - intros owner1 owner2 ep H1 H2.
    apply elem_of_Filter_owned in H1, H2. congruence.
Qed.

(** On endpoints with unique keys that are all owned and not yet visited
    the loop keeps every one. *)
Lemma Filter_range_all (ownerID : string) (eps : list Endpoint.t) :
  forall (filtered : list Endpoint.t) (visited : gmap EndpointKey.t bool),
    NoDup (Endpoint.Key <$> eps) ->
    (forall e, e ∈ eps -> Endpoint.Labels e !! OwnerLabelKey = Some ownerID) ->
    (forall e, e ∈ eps -> default false (visited !! Endpoint.Key e) = false) ->
    Endpoint.Filter_range OwnerLabelKey ownerID eps filtered visited = filtered ++ eps.
Proof.
  induction eps as [|ep eps IH]; intros filtered visited Hnd Hown Hvis; simpl.
  - now rewrite app_nil_r.
  - change (Endpoint.filter_key ep) with (Endpoint.Key ep).
    rewrite fmap_cons in Hnd. apply NoDup_cons in Hnd as [Hep Hnd].
    rewrite (Hvis ep) by left. rewrite (Hown ep) by left.
    rewrite String.eqb_refl. simpl.
    rewrite IH; [now rewrite <- app_assoc| assumption | |].
    + intros e He. apply Hown. now right.
    + intros e He. rewrite lookup_insert_ne; [apply Hvis; now right|].
      intros Heq. apply Hep. rewrite Heq. now apply list_elem_of_fmap_2.
Qed.

(** X16.  [FilterEndpointsByOwnerID] is idempotent: filtering its result
    for the same owner returns the result. *)
Theorem Filter_idempotent (ownerID : string) (eps : list Endpoint.t) :
  Endpoint.FilterEndpointsByOwnerID OwnerLabelKey ownerID
    (Endpoint.FilterEndpointsByOwnerID OwnerLabelKey ownerID eps)
  = Endpoint.FilterEndpointsByOwnerID OwnerLabelKey ownerID eps.
Proof.
  unfold Endpoint.FilterEndpointsByOwnerID at 1.
  rewrite Filter_range_all; [reflexivity| | |].
  - apply Filter_range_NoDup; [constructor|].
    intros e He. now apply elem_of_nil in He.
  - intros e. apply elem_of_Filter_owned.
  - intros e _. now rewrite lookup_empty.
Qed.

Lemma kept_from_nil (ownerID : string) (all : list Endpoint.t) (start : nat) :
  kept_from OwnerLabelKey ownerID all start [] = [].
Proof. reflexivity. Qed.

Lemma kept_from_app (ownerID : string) (all a b : list Endpoint.t) :
  forall start : nat,
    kept_from OwnerLabelKey ownerID all start (a ++ b)
    = kept_from OwnerLabelKey ownerID all start a
      ++ kept_from OwnerLabelKey ownerID all (start + length a) b.
Proof.
  induction a as [|x a IH]; intros start; cbn [app length].
  - now rewrite kept_from_nil, Nat.add_0_r.
  - rewrite !kept_from_cons, IH, <- app_assoc.
    now replace (S start + length a)%nat with (start + S (length a))%nat by lia.
Qed.

Lemma kept_from_agree (ownerID : string) (all all' eps : list Endpoint.t) :
  forall start : nat,
    (forall i : nat, (i < start + length eps)%nat -> take i all = take i all') ->
    kept_from OwnerLabelKey ownerID all start eps
    = kept_from OwnerLabelKey ownerID all' start eps.
Proof.
  induction eps as [|ep eps IH]; intros start Htake; [reflexivity|].
  rewrite !kept_from_cons. simpl in Htake.
  rewrite IH by (intros i Hi; apply Htake; lia).
  f_equal.
  assert (Hiff : first_and_owned OwnerLabelKey ownerID all (start, ep)
                 <-> first_and_owned OwnerLabelKey ownerID all' (start, ep)).
  { unfold first_and_owned. simpl. now rewrite (Htake start) by lia. }
  destruct (decide (first_and_owned OwnerLabelKey ownerID all (start, ep))),
    (decide (first_and_owned OwnerLabelKey ownerID all' (start, ep)));
    try reflexivity; tauto.
Qed.

Lemma kept_from_sublist (ownerID : string) (all eps : list Endpoint.t) (start : nat) :
  kept_from OwnerLabelKey ownerID all start eps `sublist_of` eps.
Proof.
  unfold kept_from.
  pose proof (fmap_sublist snd _ _
                (sublist_filter (first_and_owned OwnerLabelKey ownerID all)
                   (imap (fun i ep => ((start + i)%nat, ep)) eps))) as Hsub.
  now rewrite (snd_imap_pair (fun i => (start + i)%nat) eps) in Hsub.
Qed.

(** X17.  Appending endpoints to the input does not change what the filter
    returns for the input: the result for [eps ++ more] is the result for
    [eps] followed by endpoints of [more], in their order. *)
Theorem Filter_append (ownerID : string) (eps more : list Endpoint.t) :
  exists rest : list Endpoint.t,
    Endpoint.FilterEndpointsByOwnerID OwnerLabelKey ownerID (eps ++ more)
    = Endpoint.FilterEndpointsByOwnerID OwnerLabelKey ownerID eps ++ rest
    /\ rest `sublist_of` more.
Proof.
  exists (kept_from OwnerLabelKey ownerID (eps ++ more) (length eps) more).
  split; [|apply kept_from_sublist].
  rewrite !Filter_eq_kept. unfold kept. rewrite kept_from_app. simpl. f_equal.
  apply kept_from_agree. intros i Hi. apply take_app_le. simpl in Hi. lia.
Qed.

Lemma call_Key_Labels (e : Endpoint.t) (c : overlay_call) :
  Endpoint.Key (call e c) = Endpoint.Key e
  /\ Endpoint.Labels (call e c) = Endpoint.Labels e.
Proof.
  destruct c as [key value|key]; simpl.
  - now rewrite Set_overlay_set.
  - now rewrite Delete_overlay_delete.
Qed.

Lemma calls_Key_Labels (cs : list overlay_call) :
  forall e : Endpoint.t,
    Endpoint.Key (calls e cs) = Endpoint.Key e
    /\ Endpoint.Labels (calls e cs) = Endpoint.Labels e.
Proof.
  induction cs as [|c cs IH]; intros e; [split; reflexivity|].
  change (calls e (c :: cs)) with (calls (call e c) cs).
  destruct (IH (call e c)) as [-> ->]. apply call_Key_Labels.
Qed.

(** On two lists whose endpoints agree, position by position, on key and
    labels, the loop takes the same branch at every position. *)
Lemma Filter_range_select (ownerID : string) (eps eps' : list Endpoint.t) :
  Forall2 (fun e e' => Endpoint.Key e' = Endpoint.Key e
                       /\ Endpoint.Labels e' = Endpoint.Labels e) eps eps' ->
  forall (filtered filtered' : list Endpoint.t) (visited : gmap EndpointKey.t bool),
  exists mask : list bool,
    length mask = length eps
    /\ Endpoint.Filter_range OwnerLabelKey ownerID eps filtered visited
       = filtered ++ select mask eps
    /\ Endpoint.Filter_range OwnerLabelKey ownerID eps' filtered' visited
       = filtered' ++ select mask eps'.
Proof.
  induction 1 as [|e e' eps eps' [Hkey Hlab] _ IH]; intros filtered filtered' visited.
  - exists []. simpl. now rewrite !app_nil_r.
  - simpl.
    change (Endpoint.filter_key e') with (Endpoint.Key e').
    change (Endpoint.filter_key e) with (Endpoint.Key e).
    rewrite Hkey, Hlab.
    destruct (default false (visited !! Endpoint.Key e)).
    { destruct (IH filtered filtered' visited) as (mask & Hlen & H1 & H2).
      exists (false :: mask). simpl. auto. }
    destruct (Endpoint.Labels e !! OwnerLabelKey) as [endpointOwner|].
    2:{ destruct (IH filtered filtered' (<[Endpoint.Key e := true]> visited))
          as (mask & Hlen & H1 & H2).
        exists (false :: mask). simpl. auto. }
    destruct (negb (String.eqb endpointOwner ownerID)).
    { destruct (IH filtered filtered' (<[Endpoint.Key e := true]> visited))
        as (mask & Hlen & H1 & H2).
      exists (false :: mask). simpl. auto. }
    destruct (IH (filtered ++ [e]) (filtered' ++ [e'])
                (<[Endpoint.Key e := true]> visited)) as (mask & Hlen & H1 & H2).
    exists (true :: mask). simpl. rewrite H1, H2, <- !app_assoc. auto.
Qed.

(** X18.  The filter reads keys and labels only, and no call on an overlay
    changes them.  So when the endpoints of a list have gone through calls
    of [SetProviderSpecificProperty] and [DeleteProviderSpecificProperty]
    (any calls, on any of them, also through two pointers to one endpoint),
    the filter returns the endpoints at the same positions of the list as
    it did before the calls. *)
Theorem Filter_ignores_overlay (ownerID : string) (eps eps' : list Endpoint.t) :
  Forall2 overlay_updated eps eps' ->
  exists mask : list bool,
    length mask = length eps
    /\ Endpoint.FilterEndpointsByOwnerID OwnerLabelKey ownerID eps = select mask eps
    /\ Endpoint.FilterEndpointsByOwnerID OwnerLabelKey ownerID eps' = select mask eps'.
Proof.
  intros Hup. unfold Endpoint.FilterEndpointsByOwnerID.
  assert (Hsame : Forall2 (fun e e' => Endpoint.Key e' = Endpoint.Key e
                                       /\ Endpoint.Labels e' = Endpoint.Labels e)
                    eps eps').
  { eapply Forall2_impl; [exact Hup|].
    intros e e' [cs ->]. apply calls_Key_Labels. }
  destruct (Filter_range_select ownerID eps eps' Hsame [] [] ∅)
    as (mask & Hlen & H1 & H2).
  exists mask. auto.
Qed.

(** X19.  [WithSetIdentifier] sets the third component of the key and leaves
    ownership alone, so the filter keeps two owned records of one name and
    type when their set identifiers differ, and only the first when they
    are the same. *)
Theorem WithSetIdentifier_distinguishes (e : Endpoint.t) (ownerID : string) :
  (forall s : string,
      Endpoint.Key (Endpoint.WithSetIdentifier e s)
      = EndpointKey.mk (Endpoint.DNSName e) (Endpoint.RecordType e) s
      /\ Endpoint.IsOwnedBy OwnerLabelKey (Endpoint.WithSetIdentifier e s) ownerID
         = Endpoint.IsOwnedBy OwnerLabelKey e ownerID)
  /\ (Endpoint.IsOwnedBy OwnerLabelKey e ownerID = true ->
      forall s1 s2 : string,
        Endpoint.FilterEndpointsByOwnerID OwnerLabelKey ownerID
          [Endpoint.WithSetIdentifier e s1; Endpoint.WithSetIdentifier e s2]
        = if String.eqb s1 s2
          then [Endpoint.WithSetIdentifier e s1]
          else [Endpoint.WithSetIdentifier e s1; Endpoint.WithSetIdentifier e s2]).
Proof.
  split; [intros s; split; reflexivity|].
  intros Hown s1 s2. apply IsOwnedBy_iff in Hown.
  unfold Endpoint.FilterEndpointsByOwnerID.
  cbn [Endpoint.Filter_range]. rewrite lookup_empty.
  cbn [default Endpoint.WithSetIdentifier Endpoint.with_SetIdentifier Endpoint.Labels].
  rewrite Hown, String.eqb_refl. cbn [negb app].
  unfold Endpoint.filter_key.
  cbn [Endpoint.DNSName Endpoint.RecordType Endpoint.SetIdentifier].
  destruct (String.eqb_spec s1 s2) as [->|Hne].
  - now rewrite lookup_insert_eq.
  - rewrite lookup_insert_ne; [now rewrite lookup_empty|].
    intros Heq. apply (f_equal EndpointKey.SetIdentifier) in Heq.
    simpl in Heq. contradiction.
Qed.
End FilterMore.

Lemma WithSetIdentifier_distinguishes_witness :
  Endpoint.FilterEndpointsByOwnerID "owner" "x"
    [Endpoint.WithSetIdentifier
       (Endpoint.mk "a.com" ["1.1.1.1"] "A" "" 0%Z {[ "owner" := "x" ]} []) "blue";
     Endpoint.WithSetIdentifier
       (Endpoint.mk "a.com" ["1.1.1.1"] "A" "" 0%Z {[ "owner" := "x" ]} []) "green"]
  = [Endpoint.WithSetIdentifier
       (Endpoint.mk "a.com" ["1.1.1.1"] "A" "" 0%Z {[ "owner" := "x" ]} []) "blue";
     Endpoint.WithSetIdentifier
       (Endpoint.mk "a.com" ["1.1.1.1"] "A" "" 0%Z {[ "owner" := "x" ]} []) "green"].
Proof.
  destruct (WithSetIdentifier_distinguishes "owner"
              (Endpoint.mk "a.com" ["1.1.1.1"] "A" "" 0%Z {[ "owner" := "x" ]} [])
              "x") as [_ Hfilter].
  apply (Hfilter eq_refl "blue" "green").
Defined.

(** [Filter_ignores_overlay] on a list that holds one endpoint twice, the
    way two pointers to it would, before and after [Delete("k")] was called
    through both. *)
Lemma Filter_ignores_overlay_witness :
  exists mask : list bool,
    length mask = 2%nat
    /\ Endpoint.FilterEndpointsByOwnerID "owner" "x" [doubled; doubled]
       = select mask [doubled; doubled]
    /\ Endpoint.FilterEndpointsByOwnerID "owner" "x"
         [calls doubled [CallDelete "k"; CallDelete "k"];
          calls doubled [CallDelete "k"; CallDelete "k"]]
       = select mask [calls doubled [CallDelete "k"; CallDelete "k"];
                      calls doubled [CallDelete "k"; CallDelete "k"]].
Proof.
  apply (Filter_ignores_overlay "owner" "x" [doubled; doubled]).
  repeat constructor; exists [CallDelete "k"; CallDelete "k"]; reflexivity.
Defined.

(** There the filter returns the first of the two, with the overlay that
    both deletions left. *)
Example Filter_after_two_deletions :
  Endpoint.FilterEndpointsByOwnerID "owner" "x"
    [calls doubled [CallDelete "k"; CallDelete "k"];
     calls doubled [CallDelete "k"; CallDelete "k"]]
  = [Endpoint.with_ProviderSpecific doubled []].
Proof. vm_compute. reflexivity. Qed.

(** Two lists that overlap in part: [t] is the first three and [o] the last
    three of five cells.  On ["a"; "b"; "b"; "a"; "a"] and on
    ["b"; "b"; "a"; "a"; "b"] each of [t] and [o] holds the same strings up
    to order, and [IsLess] answers differently. *)
Example comparisons_overlap_order :
  elems ["a"; "b"; "b"; "a"; "a"] (mkSlice 0 3)
    ≡ₚ elems ["b"; "b"; "a"; "a"; "b"] (mkSlice 0 3)
  /\ elems ["a"; "b"; "b"; "a"; "a"] (mkSlice 2 3)
      ≡ₚ elems ["b"; "b"; "a"; "a"; "b"] (mkSlice 2 3)
  /\ fst (Targets.IsLess Standin.parseIPv6 ["a"; "b"; "b"; "a"; "a"]
            (mkSlice 0 3) (mkSlice 2 3)) = Some false
  /\ fst (Targets.IsLess Standin.parseIPv6 ["b"; "b"; "a"; "a"; "b"]
            (mkSlice 0 3) (mkSlice 2 3)) = Some true.
Proof.
  split; [|split; [|split; reflexivity]].
  - change (["a"; "b"; "b"] ≡ₚ ["b"; "b"; "a"]).
    change (["a"] ++ ["b"; "b"] ≡ₚ ["b"; "b"] ++ ["a"]). apply Permutation_app_comm.
  - change (["b"] ++ ["a"; "a"] ≡ₚ ["a"; "a"] ++ ["b"]). apply Permutation_app_comm.
Qed.
